(** * ambiantgo: the SoundPlayer of ambiant.go, and its menu dispatch loop

    A shallow embedding of [src/ambiant.go].  The Go program is glue between
    two libraries (faiface/beep for decoding and output, getlantern/systray
    for the menu); the receiver [sp *SoundPlayer] is mutated in place and the
    libraries hold state of their own (open decode handles, the speaker's
    mixer).  Both are threaded explicitly through a small state monad: a
    [State] is the [SoundPlayer] struct together with a [World] holding the
    libraries' state and the history of the calls made to them. *)

From Stdlib Require Import ZArith List String Bool Lia PrimFloat.
Import ListNotations.

Local Open Scope string_scope.
Local Open Scope list_scope.

(** ** The library side: package beep and friends *)

Module Beep.

(** [beep.Format]: sample rate, channel count and precision, all Go [int]. *)
Record Format := mkFormat {
  SampleRate : Z;
  NumChannels : Z;
  Precision : Z
}.

(** The zero value of [beep.Format], which the struct literal in [main]
    leaves in the [format] field. *)
Definition zeroFormat : Format := mkFormat 0 0 0.

(** A [beep.StreamSeekCloser] returned by [mp3.Decode] is a reference; it is
    identified by the order in which the decoder handed it out. *)
Definition Handle := nat.

(** The streamers the program builds on top of a decode handle. *)
Inductive Streamer :=
| Source (h : Handle)
| Loop (count : Z) (s : Streamer)
| Ctrl (s : Streamer) (Paused : bool)
| Volume (s : Streamer) (Base : float) (vol : float) (Silent : bool).

Arguments Volume s (Base vol)%_float Silent.

(** The [Streamer] field of a [beep.Ctrl]. *)
Definition Ctrl_Streamer (c : Streamer) : Streamer :=
  match c with
  | Ctrl s _ => s
  | _ => c
  end.

(** Assignment to the [Volume] field of an [effects.Volume]. *)
Definition set_Volume (v : float) (s : Streamer) : Streamer :=
  match s with
  | Volume s' b _ q => Volume s' b v q
  | _ => s
  end.

(** The decode handle a composed streamer reads from; [Err()] of a wrapper
    reports the error of the handle below it. *)
Fixpoint source (s : Streamer) : Handle :=
  match s with
  | Source h => h
  | Loop _ s' => source s'
  | Ctrl s' _ => source s'
  | Volume s' _ _ _ => source s'
  end.

(** Go [error] values.  [Errorf] is the value built by [fmt.Errorf]; the
    other three are produced inside packages os, mp3 and speaker. *)
Inductive error :=
| Errorf (msg : string)
| OsError (msg : string)
| Mp3Error (msg : string)
| SpeakerError (msg : string).

(** One entry per call that crosses into a library. *)
Inductive Event :=
| EvClose (h : Handle)
| EvOpen (path : string)
| EvDecode (path : string)
| EvInit (sampleRate bufferSize : Z)
| EvSeek (h : Handle) (p : Z)
| EvPlay (s : Streamer)
| EvClear
| EvErr (h : Handle)
| EvSpeakerClose.

(** What the libraries answer is outside the program: the file system, the
    codec and the audio device decide.  The answers are indexed by the number
    of library calls made so far, so a file may vanish and a device may fail
    between two calls.  [SampleRate_N sr d] is beep's [sr.N(d)], the number of
    samples in a duration, computed there in floating point. *)
Record Env := mkEnv {
  os_Open_result : nat -> string -> option string;
  mp3_Decode_result : nat -> string -> Format + string;
  speaker_Init_result : nat -> Z -> Z -> option string;
  streamer_Err_result : nat -> Handle -> option string;
  SampleRate_N : Z -> Z -> Z
}.

(** The libraries' own state.
    - [nextHandle]: how many handles [mp3.Decode] has handed out;
    - [openHandles]: the decode handles opened and not yet closed;
    - [speakerOn]: whether the last [speaker.Init] succeeded and no
      [speaker.Close] followed;
    - [mixer]: the streamers the speaker is playing;
    - [logs]: the lines written by package log;
    - [trace]: the library calls made so far, oldest first. *)
Record World := mkWorld {
  nextHandle : Handle;
  openHandles : list Handle;
  speakerOn : bool;
  mixer : list Streamer;
  logs : list (string * error);
  trace : list Event
}.

Definition emptyWorld : World := mkWorld 0 [] false [] [] [].

(** The index of the next library call. *)
Definition now (w : World) : nat := List.length (trace w).

Definition record (e : Event) (w : World) : World :=
  mkWorld (nextHandle w) (openHandles w) (speakerOn w) (mixer w) (logs w)
          (trace w ++ [e]).

Definition set_openHandles (hs : list Handle) (w : World) : World :=
  mkWorld (nextHandle w) hs (speakerOn w) (mixer w) (logs w) (trace w).

Definition set_speaker (on : bool) (m : list Streamer) (w : World) : World :=
  mkWorld (nextHandle w) (openHandles w) on m (logs w) (trace w).

Definition remove_handle (h : Handle) (hs : list Handle) : list Handle :=
  filter (fun h' => negb (Nat.eqb h' h)) hs.

(** Modelled from the spec: [Close()] of a decode handle, which belongs to
    package mp3.  The handle is no longer open; closing a handle that is
    already closed only yields an error, which the program drops. *)
Definition close (h : Handle) (w : World) : World :=
  record (EvClose h) (set_openHandles (remove_handle h (openHandles w)) w).

(** Modelled from the spec: [os.Open(path)] of the Go library: the file, or
    the error of package os ("the file cannot be opened"). *)
Definition open (E : Env) (path : string) (w : World) : (string + error) * World :=
  (match os_Open_result E (now w) path with
   | None => inl path
   | Some msg => inr (OsError msg)
   end,
   record (EvOpen path) w).

(** Modelled from the spec: [mp3.Decode(f)] of faiface/beep ("decode file
    -> streamer"): a new open handle and the file's format, or the error of
    package mp3 ("its audio container/codec cannot be decoded").  A file
    that fails to decode stays open; it is not a decode handle. *)
Definition decode (E : Env) (f : string) (w : World)
  : ((Handle * Format) + error) * World :=
  match mp3_Decode_result E (now w) f with
  | inl fmt =>
      (inl (nextHandle w, fmt),
       record (EvDecode f)
         (mkWorld (S (nextHandle w)) (nextHandle w :: openHandles w)
                  (speakerOn w) (mixer w) (logs w) (trace w)))
  | inr msg => (inr (Mp3Error msg), record (EvDecode f) w)
  end.

(** Modelled from the spec: [speaker.Init] of package speaker of
    faiface/beep, the audio output subsystem, which is outside the
    repository.  The spec has [play] "(re)initialize" the device and has the
    stream it submits replace "any stream already playing": the library's
    [Init] closes the device if it was open, starts again from an empty
    mixer and then opens the device, which may fail ([OutputInitError]). *)
Definition init (E : Env) (sampleRate bufferSize : Z) (w : World)
  : option error * World :=
  match speaker_Init_result E (now w) sampleRate bufferSize with
  | None => (None, record (EvInit sampleRate bufferSize) (set_speaker true [] w))
  | Some msg =>
      (Some (SpeakerError msg),
       record (EvInit sampleRate bufferSize) (set_speaker false [] w))
  end.

(** Modelled from the spec: [speaker.Play(s)] of the same package ("play
    streamer") adds [s] to the streamers being played. *)
Definition submit (s : Streamer) (w : World) : World :=
  record (EvPlay s) (set_speaker (speakerOn w) (mixer w ++ [s]) w).

(** Modelled from the spec: [speaker.Clear()] of the same package ("stop
    all streams") removes every streamer being played. *)
Definition clear (w : World) : World :=
  record EvClear (set_speaker (speakerOn w) [] w).

(** Modelled from the spec: [speaker.Close()] of the same package releases
    the device. *)
Definition shutdown (w : World) : World :=
  record EvSpeakerClose (set_speaker false (mixer w) w).

(** Modelled from the spec: [Seek(p)] of a decode handle; its error result
    is dropped by the program. *)
Definition seek (h : Handle) (p : Z) (w : World) : World :=
  record (EvSeek h p) w.

(** Modelled from the spec: [Err()] of a streamer, the error its decode
    handle has run into, if any. *)
Definition err (E : Env) (s : Streamer) (w : World) : option error * World :=
  (match streamer_Err_result E (now w) (source s) with
   | None => None
   | Some msg => Some (Mp3Error msg)
   end,
   record (EvErr (source s)) w).

(** Modelled from the spec: [log.Println(msg, e)] of the Go library ("a
    log line"). *)
Definition println (msg : string) (e : error) (w : World) : World :=
  mkWorld (nextHandle w) (openHandles w) (speakerOn w) (mixer w)
          (logs w ++ [(msg, e)]) (trace w).

(** The calls that reach the output subsystem. *)
Definition isOutputCall (e : Event) : bool :=
  match e with
  | EvInit _ _ | EvPlay _ | EvClear | EvSpeakerClose => true
  | _ => false
  end.

Definition isSubmit (e : Event) : bool :=
  match e with EvPlay _ => true | _ => false end.

Definition isClear (e : Event) : bool :=
  match e with EvClear => true | _ => false end.

End Beep.

Import Beep.

(** ** The program side *)

(** [type SoundPlayer struct]; [currentStreamer] is an interface value, [nil]
    until the first successful load. *)
Record SoundPlayer := mkSoundPlayer {
  sounds : list string;
  currentSound : string;
  currentStreamer : option Handle;
  format : Format;
  isPlaying : bool;
  volume : float
}.

Record State := mkState {
  player : SoundPlayer;
  world : World
}.

(** Computations that read and write the player and the libraries. *)
Definition M (A : Type) : Type := State -> A * State.

Definition ret {A} (a : A) : M A := fun st => (a, st).

Definition bind {A B} (m : M A) (k : A -> M B) : M B :=
  fun st => let (a, st') := m st in k a st'.

Notation "x <- m ;; k" := (bind m (fun x => k))
  (at level 61, m at next level, right associativity).
Notation "m ;;; k" := (bind m (fun _ => k))
  (at level 61, right associativity).

(** Reading the receiver. *)
Definition self : M SoundPlayer := fun st => (player st, st).

(** Assignments to the receiver's fields. *)
Definition assign (f : SoundPlayer -> SoundPlayer) : M unit :=
  fun st => (tt, mkState (f (player st)) (world st)).

Definition set_currentStreamer (h : Handle) (sp : SoundPlayer) :=
  mkSoundPlayer (sounds sp) (currentSound sp) (Some h) (format sp)
                (isPlaying sp) (volume sp).
Definition set_format (f : Format) (sp : SoundPlayer) :=
  mkSoundPlayer (sounds sp) (currentSound sp) (currentStreamer sp) f
                (isPlaying sp) (volume sp).
Definition set_currentSound (s : string) (sp : SoundPlayer) :=
  mkSoundPlayer (sounds sp) s (currentStreamer sp) (format sp)
                (isPlaying sp) (volume sp).
Definition set_isPlaying (b : bool) (sp : SoundPlayer) :=
  mkSoundPlayer (sounds sp) (currentSound sp) (currentStreamer sp) (format sp)
                b (volume sp).
Definition set_volume (v : float) (sp : SoundPlayer) :=
  mkSoundPlayer (sounds sp) (currentSound sp) (currentStreamer sp) (format sp)
                (isPlaying sp) v.

(** Library calls lifted to [M]. *)
Definition call {A} (f : World -> A * World) : M A :=
  fun st => let (a, w) := f (world st) in (a, mkState (player st) w).

Definition call_ (f : World -> World) : M unit :=
  fun st => (tt, mkState (player st) (f (world st))).

(** [time.Second / 10], in nanoseconds. *)
Definition tenth_of_a_second : Z := 1000000000 / 10.

Section Player.

Variable E : Env.

(** [func (sp *SoundPlayer) loadSound(filename string) error] *)
Definition loadSound (filename : string) : M (option error) :=
  sp <- self ;;
  match currentStreamer sp with
  | Some h => call_ (close h)
  | None => ret tt
  end ;;;
  r <- call (open E filename) ;;
  match r with
  | inr e => ret (Some e)
  | inl f =>
      d <- call (decode E f) ;;
      match d with
      | inr e => ret (Some e)
      | inl (streamer, fmt) =>
          assign (set_currentStreamer streamer) ;;;
          assign (set_format fmt) ;;;
          assign (set_currentSound filename) ;;;
          ret None
      end
  end.

(** [func (sp *SoundPlayer) play() error] *)
Definition play : M (option error) :=
  sp <- self ;;
  match currentStreamer sp with
  | None => ret (Some (Errorf "no sound loaded"))
  | Some h =>
      e <- call (init E (SampleRate (format sp))
                      (SampleRate_N E (SampleRate (format sp)) tenth_of_a_second)) ;;
      match e with
      | Some e' => ret (Some e')
      | None =>
          call_ (seek h 0) ;;;
          let loopStreamer := Loop (-1) (Source h) in
          let volumeCtrl := Ctrl loopStreamer false in
          let vol := Volume loopStreamer 2 0 false in
          let vol := set_Volume (volume sp) vol in
          call_ (submit vol) ;;;
          assign (set_isPlaying true) ;;;
          call (err E (Ctrl_Streamer volumeCtrl))
      end
  end.

(** [func (sp *SoundPlayer) pause()] *)
Definition pause : M unit :=
  call_ clear ;;;
  assign (set_isPlaying false).

(** [func (sp *SoundPlayer) setVolume(vol float64)] *)
Definition setVolume (vol : float) : M unit :=
  assign (set_volume vol) ;;;
  sp <- self ;;
  if isPlaying sp then
    pause ;;;
    play ;;;
    ret tt
  else ret tt.

End Player.

(** ** [main]: start-up and the dispatch loop *)

(** The track list compiled into [main]. *)
Definition main_sounds : list string := ["./sounds/Mountain Stream.mp3"].

(** The struct literal [&SoundPlayer{sounds: ..., volume: 0}]; the other
    fields take their zero values. *)
Definition newSoundPlayer (tracks : list string) : SoundPlayer :=
  mkSoundPlayer tracks "" None zeroFormat false 0%float.

(** The state in which [main] starts: no library has been called yet. *)
Definition initial (tracks : list string) : State :=
  mkState (newSoundPlayer tracks) emptyWorld.

(** The signals the first [select] of the loop waits for. *)
Inductive Click :=
| ClickPlay
| ClickPause
| ClickLow
| ClickMedium
| ClickHigh
| ClickQuit.

Section Main.

Variable E : Env.

(** "Try to load first sound by default": the three results are dropped. *)
Definition startup : M unit :=
  sp <- self ;;
  if (0 <? Z.of_nat (List.length (sounds sp)))%Z then
    loadSound E (nth 0 (sounds sp) "") ;;;
    setVolume E (-2)%float ;;;
    play E ;;;
    ret tt
  else ret tt.

(** The clean-up function handed to [systray.Run], which [systray.Quit]
    triggers. *)
Definition onExit : M unit :=
  sp <- self ;;
  match currentStreamer sp with
  | Some h => call_ (close h)
  | None => ret tt
  end ;;;
  call_ shutdown.

(** The body of [case <-item.ClickedCh] for the item of index [i]. *)
Definition onSoundItem (i : nat) : M unit :=
  sp <- self ;;
  e <- loadSound E (nth i (sounds sp) "") ;;
  match e with
  | Some e' => call_ (println "Error loading sound:" e')
  | None => ret tt
  end ;;;
  sp' <- self ;;
  if isPlaying sp' then play E ;;; ret tt else ret tt.

(** [for i, item := range soundMenuItems]: each item is polled once, in
    order; [pending] tells which items have a click waiting when polled. *)
Fixpoint forItems (items : list nat) (pending : list bool) : M unit :=
  match items with
  | [] => ret tt
  | i :: rest =>
      (if nth i pending false then onSoundItem i else ret tt) ;;;
      forItems rest pending
  end.

Definition pollSoundItems (pending : list bool) : M unit :=
  sp <- self ;;
  forItems (seq 0 (List.length (sounds sp))) pending.

(** One turn of the [for] loop: the signal received by the first [select],
    then the poll of the sound items.  The result tells whether the
    goroutine returned. *)
Definition iteration (c : Click) (pending : list bool) : M bool :=
  match c with
  | ClickPlay => play E ;;; pollSoundItems pending ;;; ret false
  | ClickPause => pause ;;; pollSoundItems pending ;;; ret false
  | ClickLow => setVolume E (-3)%float ;;; pollSoundItems pending ;;; ret false
  | ClickMedium => setVolume E (-1)%float ;;; pollSoundItems pending ;;; ret false
  | ClickHigh => setVolume E 0%float ;;; pollSoundItems pending ;;; ret false
  | ClickQuit => onExit ;;; ret true
  end.

(** The loop over the signals that arrive. *)
Fixpoint loop (inputs : list (Click * list bool)) : M unit :=
  match inputs with
  | [] => ret tt
  | (c, pending) :: rest =>
      quit <- iteration c pending ;;
      if quit then ret tt else loop rest
  end.

Definition main (inputs : list (Click * list bool)) : M unit :=
  startup ;;; loop inputs.

(** ** Reachable states *)

(** Everything [main] does to the player is a sequence of these steps. *)
Inductive Op :=
| OpLoad (path : string)
| OpPlay
| OpPause
| OpSetVolume (v : float)
| OpLog (msg : string) (e : error)
| OpExit.

Definition exec (o : Op) (st : State) : State :=
  match o with
  | OpLoad path => snd (loadSound E path st)
  | OpPlay => snd (play E st)
  | OpPause => snd (pause st)
  | OpSetVolume v => snd (setVolume E v st)
  | OpLog msg e => snd (call_ (println msg e) st)
  | OpExit => snd (onExit st)
  end.

Definition run (ops : list Op) (st : State) : State :=
  fold_left (fun s o => exec o s) ops st.

Definition Reachable (tracks : list string) (st : State) : Prop :=
  exists ops, st = run ops (initial tracks).

End Main.

(** ** Observations on states and histories *)

(** The library calls made between two states. *)
Definition since (before after : State) : list Event :=
  skipn (List.length (trace (world before))) (trace (world after)).

Definition count (p : Event -> bool) (tr : list Event) : nat :=
  List.length (filter p tr).

(** The flag a history of submits and clears leaves behind, starting from
    [b]: the last [speaker.Play] or [speaker.Clear] decides. *)
Fixpoint flagAfter (b : bool) (tr : list Event) : bool :=
  match tr with
  | [] => b
  | EvPlay _ :: rest => flagAfter true rest
  | EvClear :: rest => flagAfter false rest
  | _ :: rest => flagAfter b rest
  end.

(** The stream [play] composes over handle [h] at level [v]. *)
Definition composed (h : Handle) (v : float) : Streamer :=
  Volume (Loop (-1) (Source h)) 2 v false.

(** The libraries after the first statement of [loadSound]: the current
    streamer, if there is one, has been closed. *)
Definition closeCurrent (st : State) : World :=
  match currentStreamer (player st) with
  | Some h => close h (world st)
  | None => world st
  end.

(** The arguments [play] passes to [speaker.Init]. *)
Definition initEvent (E : Env) (sp : SoundPlayer) : Event :=
  EvInit (SampleRate (format sp))
         (SampleRate_N E (SampleRate (format sp)) tenth_of_a_second).

(** Two states that differ at most in the history of calls. *)
Definition sameState (a b : State) : Prop :=
  player a = player b /\
  nextHandle (world a) = nextHandle (world b) /\
  openHandles (world a) = openHandles (world b) /\
  speakerOn (world a) = speakerOn (world b) /\
  mixer (world a) = mixer (world b) /\
  logs (world a) = logs (world b).

(** ** Concrete library behaviours and scenarios *)

Module Scenario.

Definition cd_quality : Format := mkFormat 44100 2 2.

Definition samples (sampleRate d : Z) : Z := (sampleRate * d / 1000000000)%Z.

(** Every library call succeeds. *)
Definition all_fine : Env :=
  mkEnv (fun _ _ => None) (fun _ _ => inl cd_quality) (fun _ _ _ => None)
        (fun _ _ => None) samples.

(** No file can be opened from library call [n] on (the sound directory
    was removed). *)
Definition files_gone (n : nat) : Env :=
  mkEnv (fun t _ => if Nat.leb n t then Some "no such file or directory" else None)
        (fun _ _ => inl cd_quality) (fun _ _ _ => None) (fun _ _ => None) samples.

(** The audio device cannot be opened from library call [n] on. *)
Definition device_gone (n : nat) : Env :=
  mkEnv (fun _ _ => None) (fun _ _ => inl cd_quality)
        (fun t _ _ => if Nat.leb n t then Some "failed to initialize speaker" else None)
        (fun _ _ => None) samples.

(** The decoder runs into corrupt data during playback: from library call
    [n] on, [Err()] of a handle reports it. *)
Definition stream_breaks (n : nat) : Env :=
  mkEnv (fun _ _ => None) (fun _ _ => inl cd_quality) (fun _ _ _ => None)
        (fun t _ => if Nat.leb n t then Some "mp3: unexpected EOF" else None)
        samples.

Definition two_tracks : list string := ["a.mp3"; "b.mp3"].

(** After start-up with two tracks when every call succeeds: "a.mp3" is
    playing at level -2. *)
Definition playing : State := snd (startup all_fine (initial two_tracks)).

(** The same start-up, six library calls long, before the files vanish. *)
Definition playing_then_files_gone : State :=
  snd (startup (files_gone 6) (initial two_tracks)).

(** The same start-up before the device vanishes. *)
Definition playing_then_device_gone : State :=
  snd (startup (device_gone 6) (initial two_tracks)).

(** The same start-up, then Pause; the stream broke while it played. *)
Definition paused_on_broken_stream : State :=
  snd (pause (snd (startup (stream_breaks 6) (initial two_tracks)))).


End Scenario.

(** ** Invariant of the reachable states *)

Record Inv (st : State) : Prop := mkInv {
  inv_open_current :
    forall h, In h (openHandles (world st)) ->
              currentStreamer (player st) = Some h;
  inv_open_one : (List.length (openHandles (world st)) <= 1)%nat;
  inv_current_known :
    forall h, currentStreamer (player st) = Some h ->
              (h < nextHandle (world st))%nat;
  inv_flag : isPlaying (player st) = flagAfter false (trace (world st));
  inv_mixer : (List.length (mixer (world st)) <= 1)%nat;
  inv_playing_loaded :
    isPlaying (player st) = true -> currentStreamer (player st) <> None
}.

(** ** Readings of the specification that the code does not meet *)

(** A failed load leaves the handle that was current and open still open. *)
Definition failed_load_keeps_handle_open (E : Env) (path : string) (st : State)
  : Prop :=
  fst (loadSound E path st) <> None ->
  forall h, currentStreamer (player st) = Some h ->
            In h (openHandles (world st)) ->
            currentStreamer (player (snd (loadSound E path st))) = Some h /\
            In h (openHandles (world (snd (loadSound E path st)))).

(** [setVolume] while playing always ends with one clear, one submit and a
    stream at the new level. *)
Definition setVolume_always_restarts (E : Env) (v : float) (st : State) : Prop :=
  isPlaying (player st) = true ->
  count isClear (since st (snd (setVolume E v st))) = 1%nat /\
  count isSubmit (since st (snd (setVolume E v st))) = 1%nat /\
  exists h, mixer (world (snd (setVolume E v st))) = [composed h v].

(** A click on sound item [i] while playing always ends with track [i]
    current and playing. *)
Definition select_always_resumes (E : Env) (i : nat) (st : State) : Prop :=
  (i < List.length (sounds (player st)))%nat ->
  isPlaying (player st) = true ->
  currentSound (player (snd (onSoundItem E i st))) = nth i (sounds (player st)) "" /\
  currentStreamer (player (snd (onSoundItem E i st))) = Some (nextHandle (world st)) /\
  mixer (world (snd (onSoundItem E i st))) =
    [composed (nextHandle (world st)) (volume (player st))] /\
  volume (player (snd (onSoundItem E i st))) = volume (player st).


(** A [play] that returns an error does not turn [isPlaying] on. *)
Definition failed_play_keeps_flag_off (E : Env) (st : State) : Prop :=
  fst (play E st) <> None ->
  isPlaying (player st) = false ->
  isPlaying (player (snd (play E st))) = false.

(** ** Further observations, for the dispatch loop *)

(** The level a click of the first [select] passes to [setVolume], if it is
    one of the three volume items. *)
Definition preset (c : Click) : option float :=
  match c with
  | ClickLow => Some (-3)%float
  | ClickMedium => Some (-1)%float
  | ClickHigh => Some 0%float
  | _ => None
  end.

(** The last of [items] that has a click pending, or [acc] if none has. *)
Fixpoint lastPending (items : list nat) (pending : list bool) (acc : option nat)
  : option nat :=
  match items with
  | [] => acc
  | i :: rest => lastPending rest pending (if nth i pending false then Some i else acc)
  end.

(** A file system and a codec that never fail. *)
Definition always_decodes (E : Env) : Prop :=
  (forall t path, os_Open_result E t path = None) /\
  (forall t path, exists fmt, mp3_Decode_result E t path = inl fmt).


(** Whatever the speaker plays is one looping stream at the stored volume,
    over a handle the decoder has handed out, and the flag is on. *)
Definition MixerInv (st : State) : Prop :=
  forall s, In s (mixer (world st)) ->
    isPlaying (player st) = true /\
    exists h, (h < nextHandle (world st))%nat /\ s = composed h (volume (player st)).

(** Whatever the speaker plays reads from the current streamer. *)
Definition CurrentInv (st : State) : Prop :=
  forall s, In s (mixer (world st)) ->
    exists h, currentStreamer (player st) = Some h /\
              s = composed h (volume (player st)).

(** What holds between two turns of the dispatch loop. *)
Definition LoopInv (st : State) : Prop :=
  Inv st /\ MixerInv st /\ CurrentInv st.

(** The current track is one of the configured tracks as soon as a handle
    has been loaded, and is empty before. *)
Definition TrackInv (tracks : list string) (st : State) : Prop :=
  sounds (player st) = tracks /\
  (currentStreamer (player st) = None /\ currentSound (player st) = "" \/
   currentStreamer (player st) <> None /\ In (currentSound (player st)) tracks).



(** In a history, every submit comes right after a [Seek(0)] on the handle
    of the submitted stream, itself right after a [speaker.Init]. *)
Definition RewindsBeforePlay (tr : list Event) : Prop :=
  forall pre s post,
    tr = pre ++ EvPlay s :: post ->
    exists pre' sr n, pre = pre' ++ [EvInit sr n; EvSeek (source s) 0].

(** * Properties *)

(** ** Lists of handles and histories *)

Lemma remove_handle_In h h' hs :
  In h' (remove_handle h hs) <-> In h' hs /\ h' <> h.
Proof.
  unfold remove_handle. rewrite filter_In.
  destruct (Nat.eqb_spec h' h); simpl; intuition congruence.
Qed.

Lemma remove_handle_length h hs :
  (List.length (remove_handle h hs) <= List.length hs)%nat.
Proof.
  unfold remove_handle. induction hs as [|x hs IH]; simpl; [lia|].
  destruct (negb (Nat.eqb x h)); simpl; lia.
Qed.

Lemma remove_handle_only h hs :
  (forall x, In x hs -> x = h) -> remove_handle h hs = [].
Proof.
  intros Hall. destruct (remove_handle h hs) as [|x l] eqn:Hr; [reflexivity|].
  assert (Hx : In x (remove_handle h hs)) by (rewrite Hr; left; reflexivity).
  apply remove_handle_In in Hx. destruct Hx as [Hin Hne].
  elim Hne. apply Hall, Hin.
Qed.

Lemma flagAfter_app b tr1 tr2 :
  flagAfter b (tr1 ++ tr2) = flagAfter (flagAfter b tr1) tr2.
Proof.
  revert b. induction tr1 as [|e tr1 IH]; intros b; simpl; [reflexivity|].
  destruct e; apply IH.
Qed.

Lemma since_app st tr' w' p :
  trace w' = trace (world st) ++ tr' ->
  since st (mkState p w') = tr'.
Proof.
  intros Ht. unfold since. simpl. rewrite Ht.
  rewrite skipn_app, skipn_all, Nat.sub_diag. reflexivity.
Qed.

(** ** The operations, one equation each *)

Section Equations.

Variable E : Env.

Lemma loadSound_eq path st :
  loadSound E path st =
  let w1 := record (EvOpen path) (closeCurrent st) in
  match os_Open_result E (now (closeCurrent st)) path with
  | Some msg => (Some (OsError msg), mkState (player st) w1)
  | None =>
      match mp3_Decode_result E (now w1) path with
      | inr msg => (Some (Mp3Error msg), mkState (player st) (record (EvDecode path) w1))
      | inl fmt =>
          (None,
           mkState (mkSoundPlayer (sounds (player st)) path (Some (nextHandle w1))
                                  fmt (isPlaying (player st)) (volume (player st)))
                   (snd (decode E path w1)))
      end
  end.
Proof.
  unfold loadSound, closeCurrent, bind, self, call, call_, ret, assign, open, decode.
  destruct st as [sp w]; simpl.
  destruct (currentStreamer sp) as [h|]; simpl;
    (destruct (os_Open_result E _ path); simpl; [reflexivity|]);
    (destruct (mp3_Decode_result E _ path); reflexivity).
Qed.

Lemma play_eq st :
  play E st =
  match currentStreamer (player st) with
  | None => (Some (Errorf "no sound loaded"), st)
  | Some h =>
      let sr := SampleRate (format (player st)) in
      let n := SampleRate_N E sr tenth_of_a_second in
      match speaker_Init_result E (now (world st)) sr n with
      | Some msg =>
          (Some (SpeakerError msg),
           mkState (player st) (record (EvInit sr n) (set_speaker false [] (world st))))
      | None =>
          let w := submit (composed h (volume (player st)))
                     (seek h 0 (record (EvInit sr n) (set_speaker true [] (world st)))) in
          (fst (err E (Source h) w),
           mkState (set_isPlaying true (player st)) (record (EvErr h) w))
      end
  end.
Proof.
  unfold play, bind, self, call, call_, ret, assign, init, err, composed.
  destruct st as [sp w]; simpl.
  destruct (currentStreamer sp) as [h|]; simpl; [|reflexivity].
  destruct (speaker_Init_result E _ _ _); reflexivity.
Qed.

Lemma pause_eq st :
  pause st = (tt, mkState (set_isPlaying false (player st)) (clear (world st))).
Proof. reflexivity. Qed.

Lemma setVolume_eq v st :
  setVolume E v st =
  if isPlaying (player st) then
    (tt, snd (play E (snd (pause (mkState (set_volume v (player st)) (world st))))))
  else (tt, mkState (set_volume v (player st)) (world st)).
Proof.
  unfold setVolume, bind, self, ret, assign. simpl.
  destruct (isPlaying (player st)); [|reflexivity].
  unfold pause, bind, call_, assign. simpl.
  destruct (play E _) as [r st2]. reflexivity.
Qed.

Lemma onExit_eq st :
  onExit st = (tt, mkState (player st) (shutdown (closeCurrent st))).
Proof.
  unfold onExit, closeCurrent, bind, self, call_, ret.
  destruct (currentStreamer (player st)); reflexivity.
Qed.

Lemma onSoundItem_eq i st :
  onSoundItem E i st =
  let r := loadSound E (nth i (sounds (player st)) "") st in
  let st1 :=
    match fst r with
    | Some e => mkState (player (snd r)) (println "Error loading sound:" e (world (snd r)))
    | None => snd r
    end in
  if isPlaying (player st1) then (tt, snd (play E st1)) else (tt, st1).
Proof.
  unfold onSoundItem, bind, self, call_, ret. simpl.
  destruct (loadSound E _ st) as [[e|] st1]; simpl.
  - destruct (isPlaying (player st1)); [|reflexivity].
    destruct (play E _) as [r st2]; reflexivity.
  - destruct (isPlaying (player st1)); [|reflexivity].
    destruct (play E _) as [r st2]; reflexivity.
Qed.

End Equations.

(** ** The invariant is kept by every step *)

Section Invariant.

Variable E : Env.

Lemma closeCurrent_trace st :
  trace (closeCurrent st) =
  trace (world st) ++
  match currentStreamer (player st) with Some h => [EvClose h] | None => [] end.
Proof.
  unfold closeCurrent. destruct (currentStreamer (player st)); simpl.
  - reflexivity.
  - now rewrite app_nil_r.
Qed.

Lemma closeCurrent_rest st :
  nextHandle (closeCurrent st) = nextHandle (world st) /\
  speakerOn (closeCurrent st) = speakerOn (world st) /\
  mixer (closeCurrent st) = mixer (world st) /\
  logs (closeCurrent st) = logs (world st).
Proof.
  unfold closeCurrent. destruct (currentStreamer (player st)); simpl; auto.
Qed.

Lemma closeCurrent_open st :
  (forall h, In h (openHandles (world st)) -> currentStreamer (player st) = Some h) ->
  openHandles (closeCurrent st) = [].
Proof.
  intros Hcur. unfold closeCurrent.
  destruct (currentStreamer (player st)) as [h|] eqn:Hc; simpl.
  - apply remove_handle_only. intros x Hx. apply Hcur in Hx. congruence.
  - destruct (openHandles (world st)) as [|x l]; [reflexivity|].
    specialize (Hcur x (or_introl eq_refl)). discriminate.
Qed.

Lemma flagAfter_closeCurrent b st tr :
  flagAfter b (trace (closeCurrent st) ++ tr) =
  flagAfter (flagAfter b (trace (world st))) tr.
Proof.
  rewrite closeCurrent_trace, !flagAfter_app.
  destruct (currentStreamer (player st)); reflexivity.
Qed.

Lemma Inv_initial tracks : Inv (initial tracks).
Proof.
  constructor; simpl; try lia; try reflexivity; try discriminate; tauto.
Qed.

Lemma Inv_loadSound path st : Inv st -> Inv (snd (loadSound E path st)).
Proof.
  intros [Hcur Hone Hknown Hflag Hmix Hload].
  pose proof (closeCurrent_open st Hcur) as Hopen.
  destruct (closeCurrent_rest st) as (Hnext & _ & Hmixer & _).
  rewrite loadSound_eq. cbv zeta.
  destruct (os_Open_result E _ path) as [msg|].
  { constructor; simpl; rewrite ?Hopen, ?Hnext, ?Hmixer; simpl;
      auto; try tauto; try lia.
    rewrite Hflag, (flagAfter_closeCurrent false st [EvOpen path]). reflexivity. }
  unfold decode.
  destruct (mp3_Decode_result E _ path) as [fmt|msg].
  - constructor; simpl; rewrite ?Hopen, ?Hnext, ?Hmixer; simpl;
      auto; try lia; try discriminate.
    + intros h [Hh|[]]. now subst.
    + intros h Hh. injection Hh as <-. lia.
    + rewrite <- app_assoc, Hflag,
        (flagAfter_closeCurrent false st ([EvOpen path] ++ [EvDecode path])).
      reflexivity.
  - constructor; simpl; rewrite ?Hopen, ?Hnext, ?Hmixer; simpl;
      auto; try tauto; try lia.
    rewrite <- app_assoc, Hflag,
      (flagAfter_closeCurrent false st ([EvOpen path] ++ [EvDecode path])).
    reflexivity.
Qed.

Lemma Inv_play st : Inv st -> Inv (snd (play E st)).
Proof.
  intros Hinv. rewrite play_eq.
  destruct (currentStreamer (player st)) as [h|] eqn:Hc; [|exact Hinv].
  destruct Hinv as [Hcur Hone Hknown Hflag Hmix Hload]. cbv zeta.
  destruct (speaker_Init_result E _ _ _) as [msg|]; simpl.
  - constructor; simpl; rewrite ?flagAfter_app; simpl;
      auto; try lia; rewrite Hc; discriminate.
  - constructor; simpl; rewrite ?flagAfter_app; simpl;
      auto; try lia; rewrite Hc; discriminate.
Qed.

Lemma Inv_pause st : Inv st -> Inv (snd (pause st)).
Proof.
  intros [Hcur Hone Hknown Hflag Hmix Hload].
  rewrite pause_eq. constructor; simpl; auto; try lia; try discriminate.
  rewrite flagAfter_app. reflexivity.
Qed.

Lemma Inv_set_volume v st :
  Inv st -> Inv (mkState (set_volume v (player st)) (world st)).
Proof. intros [? ? ? ? ? ?]. constructor; simpl; auto. Qed.

Lemma Inv_setVolume v st : Inv st -> Inv (snd (setVolume E v st)).
Proof.
  intros Hinv. rewrite setVolume_eq.
  destruct (isPlaying (player st)); cbn [snd].
  - apply Inv_play, Inv_pause, Inv_set_volume, Hinv.
  - apply Inv_set_volume, Hinv.
Qed.

Lemma Inv_println msg e st :
  Inv st -> Inv (mkState (player st) (println msg e (world st))).
Proof. intros [? ? ? ? ? ?]. constructor; simpl; auto. Qed.

Lemma Inv_onExit st : Inv st -> Inv (snd (onExit st)).
Proof.
  intros [Hcur Hone Hknown Hflag Hmix Hload].
  pose proof (closeCurrent_open st Hcur) as Hopen.
  destruct (closeCurrent_rest st) as (Hnext & _ & Hmixer & _).
  rewrite onExit_eq.
  constructor; simpl; rewrite ?Hopen, ?Hnext, ?Hmixer; simpl;
    auto; try tauto; try lia.
  rewrite Hflag, (flagAfter_closeCurrent false st [EvSpeakerClose]). reflexivity.
Qed.

Lemma Inv_exec o st : Inv st -> Inv (exec E o st).
Proof.
  destruct o; simpl.
  - apply Inv_loadSound.
  - apply Inv_play.
  - apply Inv_pause.
  - apply Inv_setVolume.
  - apply Inv_println.
  - apply Inv_onExit.
Qed.

Lemma Inv_run ops st : Inv st -> Inv (run E ops st).
Proof.
  revert st. induction ops as [|o ops IH]; intros st Hinv; simpl; [assumption|].
  apply IH, Inv_exec, Hinv.
Qed.

Lemma Inv_reachable tracks ops : Inv (run E ops (initial tracks)).
Proof. apply Inv_run, Inv_initial. Qed.

End Invariant.

(** ** Every state [main] goes through is reachable *)

Section MainReachable.

Variable E : Env.

Lemma run_app ops1 ops2 st :
  run E (ops1 ++ ops2) st = run E ops2 (run E ops1 st).
Proof. unfold run. apply fold_left_app. Qed.

Lemma onSoundItem_ops i st :
  exists ops, snd (onSoundItem E i st) = run E ops st.
Proof.
  rewrite onSoundItem_eq. cbv zeta.
  set (path := nth i (sounds (player st)) "").
  destruct (fst (loadSound E path st)) as [e|] eqn:Hr.
  - destruct (isPlaying _) eqn:Hp.
    + exists [OpLoad path; OpLog "Error loading sound:" e; OpPlay]. reflexivity.
    + exists [OpLoad path; OpLog "Error loading sound:" e]. reflexivity.
  - destruct (isPlaying _) eqn:Hp.
    + exists [OpLoad path; OpPlay]. reflexivity.
    + exists [OpLoad path]. reflexivity.
Qed.

Lemma forItems_ops items pending st :
  exists ops, snd (forItems E items pending st) = run E ops st.
Proof.
  revert st. induction items as [|i items IH]; intros st; simpl.
  - exists []. reflexivity.
  - unfold bind. destruct (nth i pending false).
    + destruct (onSoundItem_ops i st) as [ops1 H1].
      destruct (onSoundItem E i st) as [u st1]. simpl in H1. subst st1.
      destruct (IH (run E ops1 st)) as [ops2 H2].
      exists (ops1 ++ ops2). rewrite run_app. exact H2.
    + unfold ret. apply IH.
Qed.

Lemma pollSoundItems_ops pending st :
  exists ops, snd (pollSoundItems E pending st) = run E ops st.
Proof. unfold pollSoundItems, bind, self. apply forItems_ops. Qed.

Lemma then_poll_ops {A} (m : M A) o pending st :
  snd (m st) = exec E o st ->
  exists ops,
    snd ((m ;;; pollSoundItems E pending ;;; ret false) st) = run E ops st.
Proof.
  intros Hm. unfold bind at 1 2. destruct (m st) as [a st1]. simpl in Hm. subst st1.
  destruct (pollSoundItems_ops pending (exec E o st)) as [ops Hops].
  destruct (pollSoundItems E pending _) as [u st2]. simpl in *.
  exists (o :: ops). exact Hops.
Qed.

Lemma iteration_ops c pending st :
  exists ops, snd (iteration E c pending st) = run E ops st.
Proof.
  destruct c; simpl.
  - apply (then_poll_ops (play E) OpPlay). reflexivity.
  - apply (then_poll_ops pause OpPause). reflexivity.
  - apply (then_poll_ops (setVolume E (-3)%float) (OpSetVolume (-3)%float)). reflexivity.
  - apply (then_poll_ops (setVolume E (-1)%float) (OpSetVolume (-1)%float)). reflexivity.
  - apply (then_poll_ops (setVolume E 0%float) (OpSetVolume 0%float)). reflexivity.
  - exists [OpExit]. unfold bind, run. simpl.
    destruct (onExit st) as [u st1]. reflexivity.
Qed.

Lemma loop_ops inputs st :
  exists ops, snd (loop E inputs st) = run E ops st.
Proof.
  revert st. induction inputs as [|[c pending] inputs IH]; intros st; simpl.
  - exists []. reflexivity.
  - unfold bind. destruct (iteration_ops c pending st) as [ops1 H1].
    destruct (iteration E c pending st) as [quit st1]. simpl in H1. subst st1.
    destruct quit.
    + exists ops1. reflexivity.
    + destruct (IH (run E ops1 st)) as [ops2 H2].
      exists (ops1 ++ ops2). rewrite run_app. exact H2.
Qed.

Lemma startup_ops st :
  exists ops, snd (startup E st) = run E ops st.
Proof.
  unfold startup, bind, self. simpl.
  destruct (0 <? Z.of_nat (List.length (sounds (player st))))%Z.
  - exists [OpLoad (nth 0 (sounds (player st)) "");
            OpSetVolume (-2)%float; OpPlay].
    simpl. destruct (loadSound E _ st) as [r1 st1]. simpl.
    destruct (setVolume E _ st1) as [r2 st2]. simpl.
    destruct (play E st2) as [r3 st3]. reflexivity.
  - exists []. reflexivity.
Qed.

(** Whatever signals arrive, the state [main] ends in is reachable. *)
Lemma main_reachable tracks inputs :
  Reachable E tracks (snd (main E inputs (initial tracks))).
Proof.
  unfold Reachable, main, bind.
  destruct (startup_ops (initial tracks)) as [ops1 H1].
  destruct (startup E (initial tracks)) as [u st1]. simpl in H1. subst st1.
  destruct (loop_ops inputs (run E ops1 (initial tracks))) as [ops2 H2].
  exists (ops1 ++ ops2). rewrite run_app. exact H2.
Qed.

End MainReachable.

(** ** What each operation leaves untouched *)

Section Frames.

Variable E : Env.

Lemma play_logs st : logs (world (snd (play E st))) = logs (world st).
Proof.
  rewrite play_eq. destruct (currentStreamer (player st)); [|reflexivity].
  cbv zeta. destruct (speaker_Init_result E _ _ _); reflexivity.
Qed.

Lemma play_player st :
  player (snd (play E st)) = player st \/
  player (snd (play E st)) = set_isPlaying true (player st).
Proof.
  rewrite play_eq. destruct (currentStreamer (player st)); [|now left].
  cbv zeta. destruct (speaker_Init_result E _ _ _); [now left|now right].
Qed.

Lemma play_currentStreamer st :
  currentStreamer (player (snd (play E st))) = currentStreamer (player st).
Proof. destruct (play_player st) as [-> | ->]; reflexivity. Qed.

Lemma loadSound_failure path st e :
  fst (loadSound E path st) = Some e ->
  player (snd (loadSound E path st)) = player st /\
  nextHandle (world (snd (loadSound E path st))) = nextHandle (world st) /\
  openHandles (world (snd (loadSound E path st))) = openHandles (closeCurrent st) /\
  speakerOn (world (snd (loadSound E path st))) = speakerOn (world st) /\
  mixer (world (snd (loadSound E path st))) = mixer (world st) /\
  logs (world (snd (loadSound E path st))) = logs (world st) /\
  exists rest,
    trace (world (snd (loadSound E path st))) =
      trace (closeCurrent st) ++ EvOpen path :: rest /\
    forallb (fun ev => negb (isOutputCall ev)) rest = true.
Proof.
  destruct (closeCurrent_rest st) as (Hnext & Hon & Hmixer & Hlogs).
  rewrite loadSound_eq. cbv zeta.
  destruct (os_Open_result E _ path) as [msg|]; simpl.
  { intros _. repeat split; auto. exists []. split; reflexivity. }
  destruct (mp3_Decode_result E _ path) as [fmt|msg]; simpl; [discriminate|].
  intros _. repeat split; auto.
  exists [EvDecode path]. split; [|reflexivity].
  now rewrite <- app_assoc.
Qed.

Lemma closeCurrent_not_open st h :
  currentStreamer (player st) = Some h -> ~ In h (openHandles (closeCurrent st)).
Proof.
  intros Hc. unfold closeCurrent. rewrite Hc. simpl.
  rewrite remove_handle_In. tauto.
Qed.

Lemma sounds_exec o st : sounds (player (exec E o st)) = sounds (player st).
Proof.
  assert (Hplay : forall s, sounds (player (snd (play E s))) = sounds (player s)).
  { intros s. destruct (play_player s) as [-> | ->]; reflexivity. }
  destruct o; simpl.
  - rewrite loadSound_eq. cbv zeta.
    destruct (os_Open_result E _ path); [reflexivity|].
    destruct (mp3_Decode_result E _ path); reflexivity.
  - apply Hplay.
  - reflexivity.
  - rewrite setVolume_eq. destruct (isPlaying (player st)); [|reflexivity].
    cbn [snd]. now rewrite Hplay.
  - reflexivity.
  - now rewrite onExit_eq.
Qed.

Lemma sounds_run ops st : sounds (player (run E ops st)) = sounds (player st).
Proof.
  revert st. induction ops as [|o ops IH]; intros st; simpl; [reflexivity|].
  now rewrite IH, sounds_exec.
Qed.

End Frames.

(** ** C1: a failed load *)

(** C1, as stated, fails: with "a.mp3" playing on the open handle 0, a load
    of "b.mp3" that cannot open the file returns an error after having closed
    handle 0, so the handle that was current is not open any more. *)
Lemma failed_load_closes_handle :
  ~ failed_load_keeps_handle_open (Scenario.files_gone 6) "b.mp3"
      Scenario.playing_then_files_gone.
Proof.
  intros H.
  assert (Herr : fst (loadSound (Scenario.files_gone 6) "b.mp3"
                        Scenario.playing_then_files_gone) <> None)
    by (vm_compute; discriminate).
  destruct (H Herr 0%nat eq_refl (or_introl eq_refl)) as [_ Hin].
  vm_compute in Hin. exact Hin.
Qed.

(** C1, amended: if [loadSound path] returns an error, every field of the
    player (track list, current track, reference to the current streamer,
    format, isPlaying, volume) is unaltered, the speaker, its mixer and the
    log are untouched and no call reaches the output subsystem; but the
    handle that was current has been closed before the file was opened, so
    it is not open afterwards.  The dispatch loop then logs the error: the
    click handler of a sound item whose load fails adds exactly the line
    "Error loading sound:" with that error. *)
Theorem failed_load_state E path st e :
  fst (loadSound E path st) = Some e ->
  player (snd (loadSound E path st)) = player st /\
  speakerOn (world (snd (loadSound E path st))) = speakerOn (world st) /\
  mixer (world (snd (loadSound E path st))) = mixer (world st) /\
  logs (world (snd (loadSound E path st))) = logs (world st) /\
  count isOutputCall (since st (snd (loadSound E path st))) = 0%nat /\
  (forall h, currentStreamer (player st) = Some h ->
     ~ In h (openHandles (world (snd (loadSound E path st)))) /\
     exists rest, since st (snd (loadSound E path st)) = EvClose h :: EvOpen path :: rest) /\
  (forall i, nth i (sounds (player st)) "" = path ->
     logs (world (snd (onSoundItem E i st))) =
     logs (world st) ++ [("Error loading sound:", e)]).
Proof.
  intros Hfail.
  destruct (loadSound_failure E path st e Hfail)
    as (Hp & Hnext & Hopen & Hon & Hmix & Hlogs & rest & Htr & Hrest).
  assert (Hsince : since st (snd (loadSound E path st)) =
                   match currentStreamer (player st) with
                   | Some h => [EvClose h] | None => [] end ++ EvOpen path :: rest).
  { destruct (snd (loadSound E path st)) as [p' w']. simpl in Htr.
    apply since_app. rewrite Htr, closeCurrent_trace, <- app_assoc. reflexivity. }
  split; [exact Hp|]. split; [exact Hon|]. split; [exact Hmix|].
  split; [exact Hlogs|]. split; [|split].
  - rewrite Hsince. unfold count.
    assert (Hnone : filter isOutputCall rest = []).
    { clear -Hrest. induction rest as [|ev rest IH]; simpl in *; [reflexivity|].
      apply andb_prop in Hrest. destruct Hrest as [Hev Hrest].
      destruct (isOutputCall ev); [discriminate|]. auto. }
    destruct (currentStreamer (player st)); simpl; rewrite Hnone; reflexivity.
  - intros h Hc. split.
    + rewrite Hopen. now apply closeCurrent_not_open.
    + rewrite Hsince, Hc. exists rest. reflexivity.
  - intros i Hi. rewrite onSoundItem_eq. cbv zeta. rewrite Hi, Hfail.
    destruct (isPlaying _); cbn [snd]; rewrite ?play_logs; simpl;
      now rewrite Hlogs.
Qed.

(** The amended C1 at work: "b.mp3" cannot be opened while "a.mp3" plays. *)
Lemma failed_load_state_witness :
  player (snd (loadSound (Scenario.files_gone 6) "b.mp3"
                 Scenario.playing_then_files_gone))
  = player Scenario.playing_then_files_gone /\
  logs (world (snd (onSoundItem (Scenario.files_gone 6) 1
                      Scenario.playing_then_files_gone)))
  = [("Error loading sound:", OsError "no such file or directory")].
Proof.
  pose proof (failed_load_state (Scenario.files_gone 6) "b.mp3"
                Scenario.playing_then_files_gone
                (OsError "no such file or directory") eq_refl) as H.
  split.
  - exact (proj1 H).
  - exact (proj2 (proj2 (proj2 (proj2 (proj2 (proj2 H))))) 1%nat eq_refl).
Defined.

(** ** C2: a successful play *)

(** C2: in every state with a loaded handle [h], a [play] that returns no
    error has made exactly these calls: [speaker.Init], [Seek(0)] on [h],
    [speaker.Play] of the stream that loops [h] indefinitely (count -1) at
    the stored volume, and [Err()].  The mixer then holds that stream and
    nothing else, whatever it held before, and [isPlaying] is true; no other
    field of the player changes. *)
Theorem play_success E st h :
  currentStreamer (player st) = Some h ->
  fst (play E st) = None ->
  since st (snd (play E st)) =
    [initEvent E (player st); EvSeek h 0;
     EvPlay (Volume (Loop (-1) (Source h)) 2 (volume (player st)) false);
     EvErr h] /\
  mixer (world (snd (play E st))) =
    [Volume (Loop (-1) (Source h)) 2 (volume (player st)) false] /\
  (List.length (mixer (world (snd (play E st)))) <= 1)%nat /\
  isPlaying (player (snd (play E st))) = true /\
  player (snd (play E st)) = set_isPlaying true (player st) /\
  openHandles (world (snd (play E st))) = openHandles (world st).
Proof.
  intros Hc. rewrite play_eq, Hc. cbv zeta.
  destruct (speaker_Init_result E _ _ _) as [msg|]; [discriminate|].
  intros _. cbn [snd]. repeat split; try reflexivity.
  apply since_app. simpl. rewrite <- !app_assoc. reflexivity.
Qed.

(** C2 at work: Play is clicked while "a.mp3" is already playing. *)
Lemma play_success_witness :
  mixer (world (snd (play Scenario.all_fine Scenario.playing))) =
    [Volume (Loop (-1) (Source 0)) 2 (-2) false] /\
  isPlaying (player (snd (play Scenario.all_fine Scenario.playing))) = true.
Proof.
  pose proof (play_success Scenario.all_fine Scenario.playing 0%nat
                eq_refl eq_refl) as H.
  split.
  - exact (proj1 (proj2 H)).
  - exact (proj1 (proj2 (proj2 (proj2 H)))).
Defined.

(** ** C3: setVolume *)

(** C3, as stated, fails: "a.mp3" is playing when the audio device goes
    away; [setVolume (-3)] clears the mixer, [play] fails in [speaker.Init],
    and no stream is submitted. *)
Lemma setVolume_restart_can_fail :
  ~ setVolume_always_restarts (Scenario.device_gone 6) (-3)%float
      Scenario.playing_then_device_gone.
Proof.
  intros H. destruct (H eq_refl) as (_ & Hsubmit & _).
  vm_compute in Hsubmit. discriminate.
Qed.

Lemma setVolume_volume E v st : volume (player (snd (setVolume E v st))) = v.
Proof.
  rewrite setVolume_eq. destruct (isPlaying (player st)); [|reflexivity].
  cbn [snd]. destruct (play_player E (snd (pause (mkState (set_volume v (player st)) (world st)))))
    as [-> | ->]; reflexivity.
Qed.

(** C3, amended: [setVolume v] stores [v].  If [isPlaying] was false that is
    all it does: no library call, no other field changed.  If [isPlaying]
    was true it performs one [pause] and one [play]: exactly one clear
    reaches the output subsystem, and, provided that [play] succeeds,
    exactly one submit follows it, the mixer holds the one stream at
    attenuation [v] and [isPlaying] is true again. *)
Theorem setVolume_restart E v st :
  volume (player (snd (setVolume E v st))) = v /\
  (isPlaying (player st) = false ->
     snd (setVolume E v st) = mkState (set_volume v (player st)) (world st) /\
     since st (snd (setVolume E v st)) = []) /\
  (isPlaying (player st) = true ->
     snd (setVolume E v st) =
       snd (play E (snd (pause (mkState (set_volume v (player st)) (world st))))) /\
     count isClear (since st (snd (setVolume E v st))) = 1%nat /\
     (fst (play E (snd (pause (mkState (set_volume v (player st)) (world st))))) = None ->
      exists h,
        currentStreamer (player st) = Some h /\
        since st (snd (setVolume E v st)) =
          [EvClear; initEvent E (player st); EvSeek h 0;
           EvPlay (Volume (Loop (-1) (Source h)) 2 v false); EvErr h] /\
        count isSubmit (since st (snd (setVolume E v st))) = 1%nat /\
        mixer (world (snd (setVolume E v st))) =
          [Volume (Loop (-1) (Source h)) 2 v false] /\
        player (snd (setVolume E v st)) = set_volume v (player st))).
Proof.
  split; [apply setVolume_volume|].
  rewrite setVolume_eq. split; intros Hp; rewrite Hp; cbn [snd].
  - split; [reflexivity|]. unfold since. simpl. apply skipn_all.
  - split; [reflexivity|].
    rewrite pause_eq. cbn [snd]. rewrite play_eq. cbn [player world].
    change (currentStreamer (set_isPlaying false (set_volume v (player st))))
      with (currentStreamer (player st)).
    destruct (currentStreamer (player st)) as [h|]; cbv zeta.
    2:{ cbn [fst snd]. split; [|discriminate].
        erewrite since_app by reflexivity. reflexivity. }
    destruct (speaker_Init_result E _ _ _) as [msg|]; cbn [fst snd].
    + split; [|discriminate].
      erewrite since_app by (simpl; rewrite <- !app_assoc; reflexivity).
      reflexivity.
    + erewrite since_app by (simpl; rewrite <- !app_assoc; reflexivity).
      split; [reflexivity|].
      intros _. exists h. repeat split.
      destruct (player st) as [a b c d p f]. simpl in *. now subst p.
Qed.

(** The amended C3 at work: Low is chosen while "a.mp3" plays at -2. *)
Lemma setVolume_restart_witness :
  count isClear (since Scenario.playing
                   (snd (setVolume Scenario.all_fine (-3)%float Scenario.playing))) = 1%nat /\
  exists h,
    currentStreamer (player Scenario.playing) = Some h /\
    mixer (world (snd (setVolume Scenario.all_fine (-3)%float Scenario.playing))) =
      [Volume (Loop (-1) (Source h)) 2 (-3) false].
Proof.
  pose proof (setVolume_restart Scenario.all_fine (-3)%float Scenario.playing)
    as (_ & _ & H).
  destruct (H eq_refl) as (_ & Hclear & Hplay).
  split; [exact Hclear|].
  destruct (Hplay eq_refl) as (h & Hc & _ & _ & Hmix & _).
  exists h. split; [exact Hc | exact Hmix].
Defined.

(** ** C4: a click on a sound item while playing *)

(** C4, as stated, fails: "a.mp3" is playing when the files go away; the
    click on the item of "b.mp3" closes the handle of "a.mp3", fails to
    load "b.mp3" and restarts the stream of "a.mp3", so "b.mp3" does not
    become the current track. *)
Lemma select_can_fail_to_load :
  ~ select_always_resumes (Scenario.files_gone 6) 1
      Scenario.playing_then_files_gone.
Proof.
  intros H.
  assert (Hi : (1 < List.length (sounds (player Scenario.playing_then_files_gone)))%nat)
    by (vm_compute; lia).
  destruct (H Hi eq_refl) as (Hsound & _).
  vm_compute in Hsound. discriminate.
Qed.

(** C4, amended: in every reachable state with [isPlaying] true, a click on
    sound item [i] whose load and whose following [play] both succeed closes
    the handle of the stream that was playing, makes track [i] the current
    track on a handle that was never handed out before and is the only open
    one, and leaves the mixer holding exactly the looping stream over that
    new handle at the volume stored before the click; the volume is
    unchanged and [isPlaying] is true. *)
Theorem select_track_resumes E tracks ops i :
  let st := run E ops (initial tracks) in
  let path := nth i tracks "" in
  let h' := nextHandle (world st) in
  isPlaying (player st) = true ->
  fst (loadSound E path st) = None ->
  fst (play E (snd (loadSound E path st))) = None ->
  currentSound (player (snd (onSoundItem E i st))) = path /\
  currentStreamer (player (snd (onSoundItem E i st))) = Some h' /\
  openHandles (world (snd (onSoundItem E i st))) = [h'] /\
  (exists h, currentStreamer (player st) = Some h /\ h <> h' /\
             exists rest, since st (snd (onSoundItem E i st)) =
                          EvClose h :: EvOpen path :: rest) /\
  mixer (world (snd (onSoundItem E i st))) =
    [Volume (Loop (-1) (Source h')) 2 (volume (player st)) false] /\
  volume (player (snd (onSoundItem E i st))) = volume (player st) /\
  isPlaying (player (snd (onSoundItem E i st))) = true.
Proof.
  intros st path h' Hp Hload Hplay.
  pose proof (Inv_reachable E tracks ops) as Hinv. fold st in Hinv.
  assert (Hsounds : nth i (sounds (player st)) "" = path).
  { unfold st. now rewrite sounds_run. }
  rewrite onSoundItem_eq. cbv zeta. rewrite Hsounds, Hload.
  pose proof (closeCurrent_open st (inv_open_current st Hinv)) as Hopen.
  destruct (closeCurrent_rest st) as (Hnext & _ & _ & _).
  pose proof (closeCurrent_trace st) as Htr.
  destruct (currentStreamer (player st)) as [h|] eqn:Hc.
  2:{ elim (inv_playing_loaded st Hinv Hp). exact Hc. }
  pose proof (inv_current_known st Hinv h Hc) as Hlt.
  revert Hload Hplay. rewrite loadSound_eq. cbv zeta. unfold decode.
  destruct (os_Open_result E _ path) as [msg|]; [discriminate|].
  destruct (mp3_Decode_result E _ path) as [fmt|msg]; [|discriminate].
  cbn [fst snd player isPlaying]. intros _. rewrite Hp.
  rewrite play_eq. cbn [player world currentStreamer format volume]. cbv zeta.
  destruct (speaker_Init_result E _ _ _) as [msg|]; [discriminate|].
  intros _. cbn [fst snd]. simpl. rewrite Hopen, Hnext.
  repeat split.
  exists h. repeat split.
  - unfold h'. lia.
  - eexists. apply since_app. simpl. rewrite Htr, <- !app_assoc. reflexivity.
Qed.

(** The amended C4 at work: "b.mp3" is selected while "a.mp3" plays. *)
Lemma select_track_resumes_witness :
  currentSound (player (snd (onSoundItem Scenario.all_fine 1 Scenario.playing))) = "b.mp3" /\
  mixer (world (snd (onSoundItem Scenario.all_fine 1 Scenario.playing))) =
    [Volume (Loop (-1) (Source 1)) 2 (-2) false].
Proof.
  pose proof (select_track_resumes Scenario.all_fine Scenario.two_tracks
                [OpLoad "a.mp3"; OpSetVolume (-2)%float; OpPlay] 1
                eq_refl eq_refl eq_refl) as H.
  split.
  - exact (proj1 H).
  - exact (proj1 (proj2 (proj2 (proj2 (proj2 H))))).
Defined.

(** ** C5: play without an open handle *)

(** [play] on a player whose current-streamer field is nil returns the
    no-sound-loaded error and changes nothing. *)
Lemma play_nil E st :
  currentStreamer (player st) = None ->
  play E st = (Some (Errorf "no sound loaded"), st).
Proof. intros Hc. now rewrite play_eq, Hc. Qed.


(** ** C6: one decode handle *)

(** C6: in every reachable state at most one decode handle is open, and it
    is the current streamer; and [loadSound] calls [Close] on the current
    streamer, if there is one, before it calls [os.Open], so that no handle
    at all is open when the next file is opened. *)
Theorem one_open_handle E tracks ops path :
  let st := run E ops (initial tracks) in
  (List.length (openHandles (world st)) <= 1)%nat /\
  (forall h, In h (openHandles (world st)) -> currentStreamer (player st) = Some h) /\
  (exists rest,
     since st (snd (loadSound E path st)) =
       match currentStreamer (player st) with
       | Some h => [EvClose h]
       | None => []
       end ++ EvOpen path :: rest) /\
  openHandles (closeCurrent st) = [] /\
  (List.length (openHandles (world (snd (loadSound E path st)))) <= 1)%nat.
Proof.
  intros st. pose proof (Inv_reachable E tracks ops) as Hinv. fold st in Hinv.
  split; [apply Hinv|]. split; [apply Hinv|].
  split; [|split].
  - pose proof (closeCurrent_trace st) as Htr.
    rewrite loadSound_eq. cbv zeta. unfold decode.
    destruct (os_Open_result E _ path) as [msg|];
      [|destruct (mp3_Decode_result E _ path) as [fmt|msg]];
      cbn [snd]; eexists; apply since_app; simpl; rewrite Htr, <- ?app_assoc;
      simpl; reflexivity.
  - apply closeCurrent_open, Hinv.
  - apply (inv_open_one _ (Inv_loadSound E path st Hinv)).
Qed.

(** ** C7: when isPlaying is true *)

(** C7, as stated, fails: "a.mp3" was paused after its stream broke; the
    next [play] submits the stream, sets [isPlaying] and then returns the
    error that [Err()] reports. *)
Lemma failed_play_sets_flag :
  ~ failed_play_keeps_flag_off (Scenario.stream_breaks 6)
      Scenario.paused_on_broken_stream.
Proof.
  intros H.
  assert (Herr : fst (play (Scenario.stream_breaks 6)
                        Scenario.paused_on_broken_stream) <> None)
    by (vm_compute; discriminate).
  specialize (H Herr eq_refl). vm_compute in H. discriminate.
Qed.

(** C7, amended: in every reachable state [isPlaying] is true exactly when
    the last [speaker.Play] or [speaker.Clear] that reached the speaker is a
    [speaker.Play], that is, after a [play] that submitted its stream and
    before any later [pause].  [loadSound] never changes the flag, [pause]
    clears it, [setVolume] on a stopped player leaves it false; a [play]
    that returns no error sets it; a [play] that submits nothing (no handle,
    or [speaker.Init] failed) leaves it as it was; and a [play] that turns
    the flag on has submitted exactly one stream, whether or not it then
    returns the error of that stream. *)
Theorem isPlaying_follows_speaker E tracks ops :
  let st := run E ops (initial tracks) in
  isPlaying (player st) = flagAfter false (trace (world st)) /\
  (forall path, isPlaying (player (snd (loadSound E path st))) = isPlaying (player st)) /\
  isPlaying (player (snd (pause st))) = false /\
  (forall v, isPlaying (player st) = false ->
             isPlaying (player (snd (setVolume E v st))) = false) /\
  (fst (play E st) = None -> isPlaying (player (snd (play E st))) = true) /\
  (count isSubmit (since st (snd (play E st))) = 0%nat ->
   fst (play E st) <> None /\
   isPlaying (player (snd (play E st))) = isPlaying (player st)) /\
  (isPlaying (player st) = false ->
   isPlaying (player (snd (play E st))) = true ->
   count isSubmit (since st (snd (play E st))) = 1%nat).
Proof.
  intros st. pose proof (Inv_reachable E tracks ops) as Hinv. fold st in Hinv.
  split; [apply Hinv|]. split; [|split; [reflexivity|split]].
  - intros path. rewrite loadSound_eq. cbv zeta.
    destruct (os_Open_result E _ path); [reflexivity|].
    destruct (mp3_Decode_result E _ path); reflexivity.
  - intros v Hp. rewrite setVolume_eq, Hp. exact Hp.
  - rewrite play_eq. destruct (currentStreamer (player st)) as [h|]; cbv zeta.
    + destruct (speaker_Init_result E _ _ _) as [msg|]; cbn [fst snd].
      * split; [discriminate|]. split.
        -- intros _. split; [discriminate|reflexivity].
        -- simpl. intros Hp Hp'. congruence.
      * erewrite since_app by (simpl; rewrite <- !app_assoc; reflexivity).
        split; [reflexivity|]. split.
        -- simpl. discriminate.
        -- reflexivity.
    + cbn [fst snd]. split; [discriminate|]. split.
      * intros _. split; [discriminate|reflexivity].
      * intros Hp Hp'. congruence.
Qed.

(** The amended C7 at work: before the first load, [play] submits nothing
    and the flag stays false. *)
Lemma isPlaying_follows_speaker_witness :
  fst (play Scenario.all_fine (initial Scenario.two_tracks)) <> None /\
  isPlaying (player (snd (play Scenario.all_fine (initial Scenario.two_tracks)))) = false /\
  isPlaying (player (snd (play Scenario.all_fine Scenario.playing))) = true.
Proof.
  pose proof (isPlaying_follows_speaker Scenario.all_fine Scenario.two_tracks [])
    as (_ & _ & _ & _ & _ & H & _).
  pose proof (isPlaying_follows_speaker Scenario.all_fine Scenario.two_tracks
                [OpLoad "a.mp3"; OpSetVolume (-2)%float; OpPlay])
    as (_ & _ & _ & _ & H' & _).
  destruct (H eq_refl) as [Herr Hflag].
  split; [exact Herr|]. split; [exact Hflag|].
  exact (H' eq_refl).
Defined.

(** ** C8: pause *)

(** C8: [pause] has no error result and is defined in every state; it makes
    the one call [speaker.Clear], leaves the mixer empty and [isPlaying]
    false, and touches nothing else.  A second [pause] changes neither the
    player nor the libraries: the two states differ only in the history,
    which holds one more [speaker.Clear]. *)
Theorem pause_idempotent st :
  pause st = (tt, snd (pause st)) /\
  since st (snd (pause st)) = [EvClear] /\
  mixer (world (snd (pause st))) = [] /\
  isPlaying (player (snd (pause st))) = false /\
  player (snd (pause st)) = set_isPlaying false (player st) /\
  openHandles (world (snd (pause st))) = openHandles (world st) /\
  sameState (snd (pause (snd (pause st)))) (snd (pause st)) /\
  isPlaying (player (snd (pause (snd (pause st))))) = false /\
  since (snd (pause st)) (snd (pause (snd (pause st)))) = [EvClear].
Proof.
  rewrite !pause_eq. cbn [snd]. unfold sameState. simpl.
  repeat split; apply since_app; reflexivity.
Qed.

(** ** C9: start-up *)

Lemma startup_eq E first rest :
  snd (startup E (initial (first :: rest))) =
  snd (play E (snd (setVolume E (-2)%float
                      (snd (loadSound E first (initial (first :: rest))))))).
Proof.
  unfold startup, bind, self, ret. simpl.
  destruct (loadSound E first _) as [r1 st1]. simpl.
  destruct (setVolume E _ st1) as [r2 st2]. simpl.
  destruct (play E st2) as [r3 st3]. reflexivity.
Qed.

(** C9: when the track list is not empty and, during start-up, the load of
    its first track and the [play] that follows both return no error, then
    after start-up the first track is the current track, on the first handle
    the decoder handed out, the volume is -2, [isPlaying] is true, and the
    speaker plays exactly the stream that loops that handle indefinitely at
    attenuation -2. *)
Theorem startup_plays_first_track E first rest :
  fst (loadSound E first (initial (first :: rest))) = None ->
  fst (play E (snd (setVolume E (-2)%float
                      (snd (loadSound E first (initial (first :: rest))))))) = None ->
  currentSound (player (snd (startup E (initial (first :: rest))))) = first /\
  currentStreamer (player (snd (startup E (initial (first :: rest))))) = Some 0%nat /\
  volume (player (snd (startup E (initial (first :: rest))))) = (-2)%float /\
  isPlaying (player (snd (startup E (initial (first :: rest))))) = true /\
  sounds (player (snd (startup E (initial (first :: rest))))) = first :: rest /\
  openHandles (world (snd (startup E (initial (first :: rest))))) = [0%nat] /\
  mixer (world (snd (startup E (initial (first :: rest))))) =
    [Volume (Loop (-1) (Source 0)) 2 (-2) false] /\
  exists sr n,
    trace (world (snd (startup E (initial (first :: rest))))) =
      [EvOpen first; EvDecode first; EvInit sr n; EvSeek 0 0;
       EvPlay (Volume (Loop (-1) (Source 0)) 2 (-2) false); EvErr 0].
Proof.
  rewrite startup_eq, loadSound_eq. cbv zeta. unfold decode.
  destruct (os_Open_result E _ first) as [msg|]; [discriminate|].
  destruct (mp3_Decode_result E _ first) as [fmt|msg]; [|discriminate].
  intros _. cbn [fst snd]. rewrite setVolume_eq. cbn [player isPlaying snd].
  rewrite play_eq. cbn [player currentStreamer]. cbv zeta.
  destruct (speaker_Init_result E _ _ _) as [msg|]; [discriminate|].
  intros _. cbn [snd]. repeat split. simpl. eexists. eexists. reflexivity.
Qed.

(** C9 at work on the track list of the specification's scenario. *)
Lemma startup_plays_first_track_witness :
  currentSound (player Scenario.playing) = "a.mp3" /\
  volume (player Scenario.playing) = (-2)%float /\
  isPlaying (player Scenario.playing) = true.
Proof.
  pose proof (startup_plays_first_track Scenario.all_fine "a.mp3" ["b.mp3"]
                eq_refl eq_refl) as H.
  split; [exact (proj1 H)|].
  split; [exact (proj1 (proj2 (proj2 H)))|].
  exact (proj1 (proj2 (proj2 (proj2 H)))).
Defined.

(** ** C10: the current streamer is never reset *)

Lemma currentStreamer_exec E o st :
  currentStreamer (player st) <> None ->
  currentStreamer (player (exec E o st)) <> None.
Proof.
  intros Hc. destruct o; simpl.
  - rewrite loadSound_eq. cbv zeta.
    destruct (os_Open_result E _ path); [exact Hc|].
    destruct (mp3_Decode_result E _ path); [discriminate|exact Hc].
  - now rewrite play_currentStreamer.
  - exact Hc.
  - rewrite setVolume_eq. destruct (isPlaying (player st)); cbn [snd].
    + now rewrite play_currentStreamer.
    + exact Hc.
  - exact Hc.
  - now rewrite onExit_eq.
Qed.

Lemma currentStreamer_run E ops st :
  currentStreamer (player st) <> None ->
  currentStreamer (player (run E ops st)) <> None.
Proof.
  revert st. induction ops as [|o ops IH]; intros st Hc; simpl; [exact Hc|].
  apply IH, currentStreamer_exec, Hc.
Qed.

Lemma play_not_nil E st :
  currentStreamer (player st) <> None ->
  fst (play E st) <> Some (Errorf "no sound loaded").
Proof.
  intros Hc. rewrite play_eq.
  destruct (currentStreamer (player st)) as [h|]; [|now elim Hc].
  cbv zeta. destruct (speaker_Init_result E _ _ _); [discriminate|].
  cbn [fst]. unfold err. cbn [fst].
  destruct (streamer_Err_result E _ _); discriminate.
Qed.

(** C10: once a load has succeeded, the current-streamer field is not nil
    in any later state, whatever sequence of operations follows, and [play]
    does not return the no-sound-loaded error there.  In particular a load
    that fails in such a state leaves the field pointing at the handle it
    pointed at, which that load has closed, and [play] right after the
    failed load still does not return the no-sound-loaded error. *)
Theorem current_streamer_never_reset E path st ops :
  fst (loadSound E path st) = None ->
  currentStreamer (player (run E ops (snd (loadSound E path st)))) <> None /\
  fst (play E (run E ops (snd (loadSound E path st)))) <> Some (Errorf "no sound loaded") /\
  forall path' e,
    fst (loadSound E path' (run E ops (snd (loadSound E path st)))) = Some e ->
    exists h,
      currentStreamer (player (run E ops (snd (loadSound E path st)))) = Some h /\
      currentStreamer
        (player (snd (loadSound E path' (run E ops (snd (loadSound E path st))))))
        = Some h /\
      ~ In h (openHandles
                (world (snd (loadSound E path' (run E ops (snd (loadSound E path st))))))) /\
      fst (play E (snd (loadSound E path' (run E ops (snd (loadSound E path st))))))
        <> Some (Errorf "no sound loaded").
Proof.
  intros Hload.
  assert (H0 : currentStreamer (player (snd (loadSound E path st))) <> None).
  { revert Hload. rewrite loadSound_eq. cbv zeta.
    destruct (os_Open_result E _ path); [discriminate|].
    destruct (mp3_Decode_result E _ path); discriminate. }
  pose proof (currentStreamer_run E ops _ H0) as H1.
  split; [exact H1|]. split; [now apply play_not_nil|].
  intros path' e Hfail.
  set (st1 := run E ops (snd (loadSound E path st))) in *.
  destruct (loadSound_failure E path' st1 e Hfail) as (Hp & _ & Hopen & _).
  destruct (currentStreamer (player st1)) as [h|] eqn:Hc; [|now elim H1].
  exists h. split; [reflexivity|]. rewrite Hp, Hopen.
  split; [exact Hc|]. split.
  - now apply closeCurrent_not_open.
  - apply play_not_nil. rewrite Hp, Hc. discriminate.
Qed.

(** C10 at work: "a.mp3" is loaded and played, then paused, and the files
    go away before it is selected again; [play] does not report that no
    sound is loaded. *)
Lemma current_streamer_never_reset_witness :
  fst (play (Scenario.files_gone 6)
         (run (Scenario.files_gone 6)
            [OpSetVolume (-2)%float; OpPlay; OpPause; OpLoad "a.mp3"]
            (snd (loadSound (Scenario.files_gone 6) "a.mp3"
                    (initial Scenario.two_tracks)))))
  <> Some (Errorf "no sound loaded").
Proof.
  exact (proj1 (proj2
    (current_streamer_never_reset (Scenario.files_gone 6) "a.mp3"
       (initial Scenario.two_tracks)
       [OpSetVolume (-2)%float; OpPlay; OpPause; OpLoad "a.mp3"]
       eq_refl))).
Defined.

(** * Further properties of the code *)

(** ** A successful load *)



(** ** What the speaker plays *)

Section Speaker.

Variable E : Env.

Lemma MixerInv_empty st : mixer (world st) = [] -> MixerInv st.
Proof. intros Hm s Hs. rewrite Hm in Hs. destruct Hs. Qed.

Lemma MixerInv_stopped st :
  MixerInv st -> isPlaying (player st) = false -> mixer (world st) = [].
Proof.
  intros Hmi Hp. destruct (mixer (world st)) as [|s l] eqn:Hm; [reflexivity|].
  destruct (Hmi s) as [Ht _]; [rewrite Hm; now left|]. congruence.
Qed.

Lemma MixerInv_play st : Inv st -> MixerInv st -> MixerInv (snd (play E st)).
Proof.
  intros Hinv Hmi. rewrite play_eq.
  destruct (currentStreamer (player st)) as [h|] eqn:Hc; [|exact Hmi].
  cbv zeta. destruct (speaker_Init_result E _ _ _) as [msg|]; cbn [snd].
  - now apply MixerInv_empty.
  - intros s [Hs|[]]. subst s. split; [reflexivity|].
    exists h. split; [|reflexivity]. simpl. apply (inv_current_known st Hinv h Hc).
Qed.

Lemma MixerInv_exec o st : Inv st -> MixerInv st -> MixerInv (exec E o st).
Proof.
  intros Hinv Hmi. destruct o; simpl.
  - rewrite loadSound_eq. cbv zeta.
    destruct (closeCurrent_rest st) as (Hnext & _ & Hmix & _).
    destruct (os_Open_result E _ path) as [msg|].
    { intros s Hs. simpl in *. rewrite Hmix in Hs. rewrite Hnext. now apply Hmi. }
    unfold decode. destruct (mp3_Decode_result E _ path) as [fmt|msg];
      intros s Hs; simpl in *; rewrite Hmix in Hs; rewrite Hnext;
      destruct (Hmi s Hs) as (Hp & h & Hlt & Hcomp); split; auto;
      exists h; split; auto.
  - now apply MixerInv_play.
  - now apply MixerInv_empty.
  - rewrite setVolume_eq. destruct (isPlaying (player st)) eqn:Hp; cbn [snd].
    + apply MixerInv_play.
      * apply Inv_pause, Inv_set_volume, Hinv.
      * now apply MixerInv_empty.
    + apply MixerInv_empty. simpl. now apply MixerInv_stopped.
  - exact Hmi.
  - rewrite onExit_eq. destruct (closeCurrent_rest st) as (Hnext & _ & Hmix & _).
    intros s Hs. simpl in *. rewrite Hmix in Hs. rewrite Hnext. now apply Hmi.
Qed.

Lemma MixerInv_run ops st : Inv st -> MixerInv st -> MixerInv (run E ops st).
Proof.
  revert st. induction ops as [|o ops IH]; intros st Hinv Hmi; simpl; [assumption|].
  apply IH; [now apply Inv_exec | now apply MixerInv_exec].
Qed.

End Speaker.

(** X2: in every reachable state the speaker plays nothing, or it plays
    exactly one stream: a handle the decoder has handed out, looped
    indefinitely, at the volume now stored in the player, and [isPlaying]
    is true.  So a stream is never heard at another level than the stored
    one, and whenever [isPlaying] is false the speaker is silent. *)
Theorem speaker_plays_stored_volume E tracks ops :
  let st := run E ops (initial tracks) in
  (mixer (world st) = [] \/
   isPlaying (player st) = true /\
   exists h, (h < nextHandle (world st))%nat /\
             mixer (world st) = [Volume (Loop (-1) (Source h)) 2 (volume (player st)) false]) /\
  (isPlaying (player st) = false -> mixer (world st) = []).
Proof.
  intros st. pose proof (Inv_reachable E tracks ops) as Hinv. fold st in Hinv.
  assert (Hmi : MixerInv st).
  { apply MixerInv_run; [apply Inv_initial|now apply MixerInv_empty]. }
  split; [|now apply MixerInv_stopped].
  pose proof (inv_mixer st Hinv) as Hlen.
  destruct (mixer (world st)) as [|s [|s' l]] eqn:Hm; [now left| |simpl in Hlen; lia].
  right. destruct (Hmi s) as (Hp & h & Hlt & Hs); [rewrite Hm; now left|].
  split; [exact Hp|]. exists h. split; [exact Hlt|]. now rewrite Hs.
Qed.

(** ** What the speaker plays between two turns of the loop *)

Section LoopInvariant.

Variable E : Env.

Lemma CurrentInv_empty st : mixer (world st) = [] -> CurrentInv st.
Proof. intros Hm s Hs. rewrite Hm in Hs. destruct Hs. Qed.

Lemma CurrentInv_play st :
  Inv st -> MixerInv st -> CurrentInv (snd (play E st)).
Proof.
  intros Hinv Hmi. rewrite play_eq.
  destruct (currentStreamer (player st)) as [h|] eqn:Hc.
  - cbv zeta. destruct (speaker_Init_result E _ _ _) as [msg|]; cbn [snd].
    + now apply CurrentInv_empty.
    + intros s [Hs|[]]. subst s. exists h. split; [exact Hc|reflexivity].
  - cbn [snd]. apply CurrentInv_empty, MixerInv_stopped; [exact Hmi|].
    destruct (isPlaying (player st)) eqn:Hp; [|reflexivity].
    elim (inv_playing_loaded st Hinv Hp). exact Hc.
Qed.

Lemma LoopInv_initial tracks : LoopInv (initial tracks).
Proof.
  split; [apply Inv_initial|].
  split; [now apply MixerInv_empty|now apply CurrentInv_empty].
Qed.

Lemma LoopInv_play st : LoopInv st -> LoopInv (snd (play E st)).
Proof.
  intros (Hinv & Hmi & _). split; [now apply Inv_play|].
  split; [now apply MixerInv_play|now apply CurrentInv_play].
Qed.

Lemma LoopInv_pause st : LoopInv st -> LoopInv (snd (pause st)).
Proof.
  intros (Hinv & Hmi & _). split; [now apply Inv_pause|].
  split; [now apply MixerInv_empty|now apply CurrentInv_empty].
Qed.

Lemma LoopInv_setVolume v st : LoopInv st -> LoopInv (snd (setVolume E v st)).
Proof.
  intros (Hinv & Hmi & _). split; [now apply Inv_setVolume|].
  split; [apply (MixerInv_exec E (OpSetVolume v)); assumption|].
  rewrite setVolume_eq. destruct (isPlaying (player st)) eqn:Hp; cbn [snd].
  - apply CurrentInv_play.
    + apply Inv_pause, Inv_set_volume, Hinv.
    + now apply MixerInv_empty.
  - apply CurrentInv_empty. simpl. now apply MixerInv_stopped.
Qed.

Lemma LoopInv_onExit st : LoopInv st -> LoopInv (snd (onExit st)).
Proof.
  intros (Hinv & Hmi & Hci). split; [now apply Inv_onExit|].
  split; [apply (MixerInv_exec E OpExit); assumption|].
  rewrite onExit_eq. destruct (closeCurrent_rest st) as (_ & _ & Hmix & _).
  intros s Hs. simpl in *. rewrite Hmix in Hs. now apply Hci.
Qed.

Lemma LoopInv_onSoundItem i st : LoopInv st -> LoopInv (snd (onSoundItem E i st)).
Proof.
  intros (Hinv & Hmi & _).
  rewrite onSoundItem_eq. cbv zeta.
  set (path := nth i (sounds (player st)) "").
  set (st1 := match fst (loadSound E path st) with
              | Some e => mkState (player (snd (loadSound E path st)))
                            (println "Error loading sound:" e
                               (world (snd (loadSound E path st))))
              | None => snd (loadSound E path st)
              end).
  assert (H1 : Inv st1 /\ MixerInv st1).
  { unfold st1. destruct (fst (loadSound E path st)) as [e|].
    - split.
      + apply Inv_println, Inv_loadSound, Hinv.
      + apply (MixerInv_exec E (OpLog "Error loading sound:" e));
          [now apply Inv_loadSound|].
        apply (MixerInv_exec E (OpLoad path)); assumption.
    - split; [now apply Inv_loadSound|].
      apply (MixerInv_exec E (OpLoad path)); assumption. }
  destruct H1 as [Hinv1 Hmi1].
  destruct (isPlaying (player st1)) eqn:Hp; cbn [snd].
  - split; [now apply Inv_play|].
    split; [now apply MixerInv_play|now apply CurrentInv_play].
  - split; [exact Hinv1|]. split; [exact Hmi1|].
    now apply CurrentInv_empty, MixerInv_stopped.
Qed.

Lemma LoopInv_forItems items pending st :
  LoopInv st -> LoopInv (snd (forItems E items pending st)).
Proof.
  revert st. induction items as [|i items IH]; intros st Hst; simpl; [exact Hst|].
  unfold bind. destruct (nth i pending false).
  - pose proof (LoopInv_onSoundItem i st Hst) as H1.
    destruct (onSoundItem E i st) as [u st1]. now apply IH.
  - unfold ret. now apply IH.
Qed.

Lemma LoopInv_then_poll {A} (m : M A) pending st :
  LoopInv (snd (m st)) ->
  LoopInv (snd ((m ;;; pollSoundItems E pending ;;; ret false) st)).
Proof.
  intros Hm. unfold bind at 1 2. destruct (m st) as [a st1]. simpl in Hm.
  unfold pollSoundItems, bind, self.
  pose proof (LoopInv_forItems (seq 0 (List.length (sounds (player st1)))) pending st1 Hm) as H.
  destruct (forItems E _ pending st1) as [u st2]. exact H.
Qed.

Lemma LoopInv_iteration c pending st :
  LoopInv st -> LoopInv (snd (iteration E c pending st)).
Proof.
  intros Hst. destruct c; simpl.
  - now apply LoopInv_then_poll, LoopInv_play.
  - now apply LoopInv_then_poll, LoopInv_pause.
  - now apply LoopInv_then_poll, LoopInv_setVolume.
  - now apply LoopInv_then_poll, LoopInv_setVolume.
  - now apply LoopInv_then_poll, LoopInv_setVolume.
  - unfold bind. pose proof (LoopInv_onExit st Hst) as H.
    destruct (onExit st) as [u st1]. exact H.
Qed.

Lemma LoopInv_loop inputs st : LoopInv st -> LoopInv (snd (loop E inputs st)).
Proof.
  revert st. induction inputs as [|[c pending] inputs IH]; intros st Hst; simpl;
    [exact Hst|].
  unfold bind. pose proof (LoopInv_iteration c pending st Hst) as H.
  destruct (iteration E c pending st) as [quit st1]. destruct quit; [exact H|].
  now apply IH.
Qed.

Lemma LoopInv_startup st : LoopInv st -> LoopInv (snd (startup E st)).
Proof.
  intros Hst. unfold startup, bind, self. simpl.
  destruct (0 <? Z.of_nat (List.length (sounds (player st))))%Z; [|exact Hst].
  destruct Hst as (Hinv & Hmi & _).
  set (path := nth 0 (sounds (player st)) "").
  pose proof (Inv_loadSound E path st Hinv) as Hinv1.
  pose proof (MixerInv_exec E (OpLoad path) st Hinv Hmi) as Hmi1. simpl in Hmi1.
  destruct (loadSound E path st) as [r1 st1]. simpl in *.
  pose proof (Inv_setVolume E (-2)%float st1 Hinv1) as Hinv2.
  pose proof (MixerInv_exec E (OpSetVolume (-2)%float) st1 Hinv1 Hmi1) as Hmi2.
  simpl in Hmi2.
  destruct (setVolume E (-2)%float st1) as [r2 st2]. simpl in *.
  pose proof (Inv_play E st2 Hinv2) as Hinv3.
  pose proof (MixerInv_play E st2 Hinv2 Hmi2) as Hmi3.
  pose proof (CurrentInv_play st2 Hinv2 Hmi2) as Hci3.
  destruct (play E st2) as [r3 st3]. simpl in *.
  split; [exact Hinv3|]. split; [exact Hmi3|exact Hci3].
Qed.

Lemma LoopInv_main tracks inputs :
  LoopInv (snd (main E inputs (initial tracks))).
Proof.
  unfold main, bind.
  pose proof (LoopInv_startup (initial tracks) (LoopInv_initial tracks)) as H.
  destruct (startup E (initial tracks)) as [u st1].
  now apply LoopInv_loop.
Qed.

End LoopInvariant.

(** X3: whatever clicks arrive and whatever the libraries answer, when
    [main]'s loop has handled them the speaker plays nothing, or it plays
    exactly the looping stream of the player's current streamer at the
    stored volume with [isPlaying] true: between two turns of the loop the
    speaker never plays another track than the current one.  (Inside a
    turn, between the load of a clicked item and the [play] that follows,
    the speaker still holds the stream of the previous handle.) *)
Theorem speaker_plays_current_track E tracks inputs :
  let st := snd (main E inputs (initial tracks)) in
  mixer (world st) = [] \/
  exists h,
    currentStreamer (player st) = Some h /\
    isPlaying (player st) = true /\
    mixer (world st) = [Volume (Loop (-1) (Source h)) 2 (volume (player st)) false].
Proof.
  intros st. destruct (LoopInv_main E tracks inputs) as (Hinv & Hmi & Hci).
  fold st in Hinv, Hmi, Hci.
  pose proof (inv_mixer st Hinv) as Hlen.
  destruct (mixer (world st)) as [|s [|s' l]] eqn:Hm; [now left| |simpl in Hlen; lia].
  right. destruct (Hci s) as (h & Hc & Hs); [rewrite Hm; now left|].
  destruct (Hmi s) as [Hp _]; [rewrite Hm; now left|].
  exists h. split; [exact Hc|]. split; [exact Hp|]. now rewrite Hs.
Qed.

(** ** An empty track list *)

Section EmptyTrackList.

Variable E : Env.




End EmptyTrackList.


(** ** Start-up when the first track cannot be loaded *)

(** X5: when the load of the first track fails during start-up, the error
    is dropped without a log line, the volume is still set to -2, and the
    [play] that follows fails on its nil check before it reaches the
    speaker: the player is left with no track, no handle, [isPlaying] false,
    and no call has reached the output subsystem. *)
Theorem startup_first_load_fails E first rest e :
  fst (loadSound E first (initial (first :: rest))) = Some e ->
  player (snd (startup E (initial (first :: rest)))) =
    mkSoundPlayer (first :: rest) "" None zeroFormat false (-2)%float /\
  logs (world (snd (startup E (initial (first :: rest))))) = [] /\
  openHandles (world (snd (startup E (initial (first :: rest))))) = [] /\
  mixer (world (snd (startup E (initial (first :: rest))))) = [] /\
  count isOutputCall (trace (world (snd (startup E (initial (first :: rest)))))) = 0%nat /\
  (exists more, trace (world (snd (startup E (initial (first :: rest))))) =
                EvOpen first :: more).
Proof.
  rewrite startup_eq, loadSound_eq. cbv zeta.
  destruct (os_Open_result E _ first) as [msg|].
  - intros _. cbn [fst snd]. rewrite setVolume_eq. cbn [player isPlaying snd].
    rewrite play_nil by reflexivity. cbn [snd].
    repeat split. exists []. reflexivity.
  - destruct (mp3_Decode_result E _ first) as [fmt|msg]; [discriminate|].
    intros _. cbn [fst snd]. rewrite setVolume_eq. cbn [player isPlaying snd].
    rewrite play_nil by reflexivity. cbn [snd].
    repeat split. exists [EvDecode first]. reflexivity.
Qed.

(** X5 at work: the sound directory is missing from the start. *)
Lemma startup_first_load_fails_witness :
  player (snd (startup (Scenario.files_gone 0) (initial Scenario.two_tracks))) =
    mkSoundPlayer Scenario.two_tracks "" None zeroFormat false (-2)%float /\
  logs (world (snd (startup (Scenario.files_gone 0) (initial Scenario.two_tracks)))) = [].
Proof.
  pose proof (startup_first_load_fails (Scenario.files_gone 0) "a.mp3" ["b.mp3"]
                (OsError "no such file or directory") eq_refl) as H.
  split; [exact (proj1 H) | exact (proj1 (proj2 H))].
Defined.

(** ** Quit *)

(** X6: in every reachable state, a turn of the loop that receives Quit
    runs the clean-up and returns: the current streamer, if any, is closed
    and then the speaker, so that no decode handle is open and the device
    is released; no field of the player changes; the clicks pending on
    sound items in that turn and every later signal are not handled. *)
Theorem quit_releases_everything E tracks ops pending rest :
  let st := run E ops (initial tracks) in
  loop E ((ClickQuit, pending) :: rest) st = (tt, snd (onExit st)) /\
  player (snd (onExit st)) = player st /\
  openHandles (world (snd (onExit st))) = [] /\
  speakerOn (world (snd (onExit st))) = false /\
  logs (world (snd (onExit st))) = logs (world st) /\
  since st (snd (onExit st)) =
    match currentStreamer (player st) with
    | Some h => [EvClose h]
    | None => []
    end ++ [EvSpeakerClose].
Proof.
  intros st. pose proof (Inv_reachable E tracks ops) as Hinv. fold st in Hinv.
  pose proof (closeCurrent_open st (inv_open_current st Hinv)) as Hopen.
  destruct (closeCurrent_rest st) as (_ & _ & _ & Hlogs).
  split.
  { simpl. unfold bind. rewrite onExit_eq. reflexivity. }
  rewrite onExit_eq. cbn [snd]. simpl. rewrite Hopen, Hlogs.
  repeat split.
  apply since_app. simpl. rewrite closeCurrent_trace, <- app_assoc. reflexivity.
Qed.

(** ** What clicks change *)

Section Clicks.

Variable E : Env.

Lemma loadSound_keeps path st :
  isPlaying (player (snd (loadSound E path st))) = isPlaying (player st) /\
  volume (player (snd (loadSound E path st))) = volume (player st) /\
  sounds (player (snd (loadSound E path st))) = sounds (player st).
Proof.
  rewrite loadSound_eq. cbv zeta.
  destruct (os_Open_result E _ path); [repeat split|].
  destruct (mp3_Decode_result E _ path); repeat split.
Qed.

Lemma play_keeps st :
  volume (player (snd (play E st))) = volume (player st) /\
  sounds (player (snd (play E st))) = sounds (player st) /\
  currentSound (player (snd (play E st))) = currentSound (player st).
Proof. destruct (play_player E st) as [-> | ->]; repeat split. Qed.

Lemma play_flag_on st :
  isPlaying (player st) = true -> isPlaying (player (snd (play E st))) = true.
Proof. intros Hp. destruct (play_player E st) as [-> | ->]; [exact Hp|reflexivity]. Qed.

Lemma onSoundItem_keeps i st :
  isPlaying (player (snd (onSoundItem E i st))) = isPlaying (player st) /\
  volume (player (snd (onSoundItem E i st))) = volume (player st) /\
  sounds (player (snd (onSoundItem E i st))) = sounds (player st).
Proof.
  rewrite onSoundItem_eq. cbv zeta.
  destruct (loadSound_keeps (nth i (sounds (player st)) "") st) as (Hp & Hv & Hs).
  set (r := loadSound E (nth i (sounds (player st)) "") st) in *.
  set (st1 := match fst r with
              | Some e => mkState (player (snd r))
                            (println "Error loading sound:" e (world (snd r)))
              | None => snd r
              end).
  assert (H1 : player st1 = player (snd r)).
  { unfold st1. destruct (fst r); reflexivity. }
  destruct (isPlaying (player st1)) eqn:Hp1; cbn [snd].
  - destruct (play_keeps st1) as (Hv' & Hs' & _).
    rewrite (play_flag_on st1 Hp1), Hv', Hs', <- Hp, <- Hv, <- Hs, <- H1.
    repeat split. now symmetry.
  - rewrite <- Hp, <- Hv, <- Hs, <- H1. repeat split.
Qed.

Lemma forItems_keeps items pending st :
  isPlaying (player (snd (forItems E items pending st))) = isPlaying (player st) /\
  volume (player (snd (forItems E items pending st))) = volume (player st) /\
  sounds (player (snd (forItems E items pending st))) = sounds (player st).
Proof.
  revert st. induction items as [|i items IH]; intros st; simpl; [repeat split|].
  unfold bind. destruct (nth i pending false).
  - destruct (onSoundItem_keeps i st) as (Hp & Hv & Hs).
    destruct (onSoundItem E i st) as [u st1]. simpl in *.
    rewrite <- Hp, <- Hv, <- Hs. apply IH.
  - unfold ret. apply IH.
Qed.

Lemma then_poll_keeps {A} (m : M A) pending st :
  isPlaying (player (snd ((m ;;; pollSoundItems E pending ;;; ret false) st)))
    = isPlaying (player (snd (m st))) /\
  volume (player (snd ((m ;;; pollSoundItems E pending ;;; ret false) st)))
    = volume (player (snd (m st))) /\
  sounds (player (snd ((m ;;; pollSoundItems E pending ;;; ret false) st)))
    = sounds (player (snd (m st))).
Proof.
  unfold bind at 1 2 3 4 5 6. destruct (m st) as [a st1]. cbn [snd].
  unfold pollSoundItems, bind, self.
  pose proof (forItems_keeps (seq 0 (List.length (sounds (player st1)))) pending st1) as H.
  destruct (forItems E _ pending st1) as [u st2]. exact H.
Qed.

End Clicks.

(** X7: the poll of the sound items, whichever items have a click pending
    and whether their loads succeed or fail, never changes [isPlaying], the
    volume or the track list: selecting tracks neither starts nor stops
    the player and keeps the level. *)
Theorem poll_keeps_flag_and_volume E pending st :
  isPlaying (player (snd (pollSoundItems E pending st))) = isPlaying (player st) /\
  volume (player (snd (pollSoundItems E pending st))) = volume (player st) /\
  sounds (player (snd (pollSoundItems E pending st))) = sounds (player st).
Proof.
  unfold pollSoundItems, bind, self. apply forItems_keeps.
Qed.

(** X8: after a turn of the loop the stored volume is -3, -1 or 0 when the
    signal was Low, Medium or High, and is what it was for every other
    signal, whatever sound items were clicked in the same turn; after a
    turn that received Pause [isPlaying] is false, again whatever sound
    items were clicked; and no turn changes the track list. *)
Theorem turn_sets_volume E c pending st :
  volume (player (snd (iteration E c pending st))) =
    match preset c with
    | Some v => v
    | None => volume (player st)
    end /\
  (c = ClickPause -> isPlaying (player (snd (iteration E c pending st))) = false) /\
  sounds (player (snd (iteration E c pending st))) = sounds (player st).
Proof.
  destruct c; simpl;
    try (match goal with
         | |- context [bind ?m _] =>
             destruct (then_poll_keeps E m pending st) as (Hp & Hv & Hs)
         end;
         rewrite Hp, Hv, Hs).
  - destruct (play_keeps E st) as (Hv' & Hs' & _). rewrite Hv', Hs'.
    repeat split. discriminate.
  - repeat split.
  - rewrite setVolume_volume.
    change (sounds (player (snd (setVolume E (-3)%float st))))
      with (sounds (player (exec E (OpSetVolume (-3)%float) st))).
    rewrite sounds_exec. repeat split. discriminate.
  - rewrite setVolume_volume.
    change (sounds (player (snd (setVolume E (-1)%float st))))
      with (sounds (player (exec E (OpSetVolume (-1)%float) st))).
    rewrite sounds_exec. repeat split. discriminate.
  - rewrite setVolume_volume.
    change (sounds (player (snd (setVolume E 0%float st))))
      with (sounds (player (exec E (OpSetVolume 0%float) st))).
    rewrite sounds_exec. repeat split. discriminate.
  - unfold bind. rewrite onExit_eq. repeat split. discriminate.
Qed.

(** ** Several sound items clicked in one turn *)

Section LastClick.

Variable E : Env.

Lemma lastPending_acc items pending i :
  lastPending items pending (Some i) =
  match lastPending items pending None with
  | Some j => Some j
  | None => Some i
  end.
Proof.
  revert i. induction items as [|k items IH]; intros i; simpl; [reflexivity|].
  destruct (nth k pending false); [|apply IH].
  rewrite (IH k). destruct (lastPending items pending None); reflexivity.
Qed.

Lemma onSoundItem_loads i st :
  always_decodes E ->
  currentSound (player (snd (onSoundItem E i st))) = nth i (sounds (player st)) "".
Proof.
  intros [Hopen Hdec]. rewrite onSoundItem_eq. cbv zeta.
  set (path := nth i (sounds (player st)) "").
  rewrite loadSound_eq. cbv zeta. rewrite Hopen.
  destruct (Hdec (now (record (EvOpen path) (closeCurrent st))) path) as [fmt ->].
  cbn [fst snd player isPlaying].
  destruct (isPlaying (player st)); cbn [snd]; [|reflexivity].
  destruct (play_keeps E (mkState
              (mkSoundPlayer (sounds (player st)) path
                 (Some (nextHandle (record (EvOpen path) (closeCurrent st))))
                 fmt true (volume (player st)))
              (snd (decode E path (record (EvOpen path) (closeCurrent st))))))
    as (_ & _ & ->).
  reflexivity.
Qed.

Lemma forItems_last items pending st :
  always_decodes E ->
  currentSound (player (snd (forItems E items pending st))) =
  match lastPending items pending None with
  | Some i => nth i (sounds (player st)) ""
  | None => currentSound (player st)
  end.
Proof.
  intros HE. revert st. induction items as [|i items IH]; intros st; simpl;
    [reflexivity|].
  unfold bind. destruct (nth i pending false).
  - pose proof (onSoundItem_loads i st HE) as Hcur.
    destruct (onSoundItem_keeps E i st) as (_ & _ & Hs).
    destruct (onSoundItem E i st) as [u st1]. simpl in *.
    rewrite IH, lastPending_acc, Hs, Hcur.
    destruct (lastPending items pending None); reflexivity.
  - unfold ret. apply IH.
Qed.

End LastClick.

(** X9: when the file system and the codec do not fail, the poll handles
    every sound item that has a click pending, in item order, so the track
    of the last clicked item ends up the current track; with no click
    pending the current track is unchanged. *)
Theorem last_clicked_item_wins E pending st :
  always_decodes E ->
  currentSound (player (snd (pollSoundItems E pending st))) =
  match lastPending (seq 0 (List.length (sounds (player st)))) pending None with
  | Some i => nth i (sounds (player st)) ""
  | None => currentSound (player st)
  end.
Proof.
  intros HE. unfold pollSoundItems, bind, self. now apply forItems_last.
Qed.

(** X9 at work: both items are clicked while "a.mp3" plays. *)
Lemma last_clicked_item_wins_witness :
  currentSound (player (snd (pollSoundItems Scenario.all_fine [true; true]
                               Scenario.playing))) = "b.mp3".
Proof.
  assert (HE : always_decodes Scenario.all_fine).
  { split; intros t path; [reflexivity|]. exists Scenario.cd_quality. reflexivity. }
  exact (last_clicked_item_wins Scenario.all_fine [true; true] Scenario.playing HE).
Defined.

(** ** Play while playing *)

(** X10: when a [play] that returned no error is followed by another [play]
    that returns no error, the second one makes the same four library calls
    again and leaves the player and the libraries exactly as the first one
    left them: Play while playing restarts the stream and changes nothing
    else. *)
Theorem play_twice E st :
  fst (play E st) = None ->
  fst (play E (snd (play E st))) = None ->
  sameState (snd (play E (snd (play E st)))) (snd (play E st)) /\
  exists h,
    currentStreamer (player st) = Some h /\
    since (snd (play E st)) (snd (play E (snd (play E st)))) =
      [initEvent E (player st); EvSeek h 0;
       EvPlay (Volume (Loop (-1) (Source h)) 2 (volume (player st)) false);
       EvErr h].
Proof.
  rewrite (play_eq E st).
  destruct (currentStreamer (player st)) as [h|] eqn:Hc; [|discriminate].
  cbv zeta. destruct (speaker_Init_result E _ _ _) as [msg|]; [discriminate|].
  intros _. cbn [snd]. rewrite play_eq. cbn [player world currentStreamer set_isPlaying].
  rewrite Hc. cbv zeta.
  destruct (speaker_Init_result E _ _ _) as [msg|]; [discriminate|].
  intros _. cbn [snd]. split.
  - unfold sameState. simpl. repeat split.
  - exists h. split; [reflexivity|].
    apply since_app. simpl. rewrite <- !app_assoc. reflexivity.
Qed.

(** X10 at work: Play is clicked while "a.mp3" plays. *)
Lemma play_twice_witness :
  sameState
    (snd (play Scenario.all_fine
            (snd (play Scenario.all_fine
                    (snd (loadSound Scenario.all_fine "a.mp3"
                            (initial Scenario.two_tracks)))))))
    (snd (play Scenario.all_fine
            (snd (loadSound Scenario.all_fine "a.mp3" (initial Scenario.two_tracks))))).
Proof.
  exact (proj1 (play_twice Scenario.all_fine
                  (snd (loadSound Scenario.all_fine "a.mp3"
                          (initial Scenario.two_tracks)))
                  eq_refl eq_refl)).
Defined.

(** ** No resume: every submit follows a rewind *)

Section Rewind.

Variable E : Env.

Lemma Rewinds_quiet tr chunk :
  RewindsBeforePlay tr ->
  forallb (fun e => negb (isSubmit e)) chunk = true ->
  RewindsBeforePlay (tr ++ chunk).
Proof.
  intros Htr Hquiet pre s post Heq.
  assert (Hno : ~ In (EvPlay s) chunk).
  { intros Hin. rewrite forallb_forall in Hquiet.
    specialize (Hquiet _ Hin). discriminate. }
  apply app_eq_app in Heq. destruct Heq as [l [[Hl Hr]|[Hl Hr]]].
  - destruct l as [|e l].
    + simpl in Hr. elim Hno. rewrite <- Hr. now left.
    + simpl in Hr. injection Hr as <- _. apply (Htr pre s l). exact Hl.
  - elim Hno. rewrite Hr. apply in_or_app. right. now left.
Qed.

Lemma Rewinds_submit tr sr n s :
  RewindsBeforePlay tr ->
  RewindsBeforePlay (((tr ++ [EvInit sr n]) ++ [EvSeek (source s) 0]) ++ [EvPlay s]).
Proof.
  intros Htr pre s0 post Heq.
  assert (Hprev : RewindsBeforePlay ((tr ++ [EvInit sr n]) ++ [EvSeek (source s) 0])).
  { apply Rewinds_quiet; [apply Rewinds_quiet|]; auto. }
  apply app_eq_app in Heq. destruct Heq as [l [[Hl Hr]|[Hl Hr]]].
  - destruct l as [|e l].
    + simpl in Hr. injection Hr as -> _. rewrite app_nil_r in Hl. subst pre.
      exists tr, sr, n. now rewrite <- app_assoc.
    + simpl in Hr. injection Hr as <- _. apply (Hprev pre s0 l). exact Hl.
  - destruct l as [|e l].
    + simpl in Hr. injection Hr as -> _. rewrite app_nil_r in Hl. subst pre.
      exists tr, sr, n. now rewrite <- app_assoc.
    + simpl in Hr. injection Hr as _ Hr. destruct l; discriminate.
Qed.

Lemma Rewinds_closeCurrent st tr :
  RewindsBeforePlay (trace (world st)) ->
  forallb (fun e => negb (isSubmit e)) tr = true ->
  RewindsBeforePlay (trace (closeCurrent st) ++ tr).
Proof.
  intros Hst Htr. rewrite closeCurrent_trace, <- app_assoc.
  apply Rewinds_quiet; [exact Hst|].
  destruct (currentStreamer (player st)); simpl; exact Htr.
Qed.

Lemma Rewinds_play st :
  RewindsBeforePlay (trace (world st)) ->
  RewindsBeforePlay (trace (world (snd (play E st)))).
Proof.
  intros Hst. rewrite play_eq.
  destruct (currentStreamer (player st)) as [h|]; [|exact Hst].
  cbv zeta. destruct (speaker_Init_result E _ _ _) as [msg|]; cbn [snd]; simpl.
  - now apply Rewinds_quiet.
  - apply Rewinds_quiet; [|reflexivity].
    apply (Rewinds_submit (trace (world st)) _ _ (composed h (volume (player st)))).
    exact Hst.
Qed.

Lemma Rewinds_exec o st :
  RewindsBeforePlay (trace (world st)) ->
  RewindsBeforePlay (trace (world (exec E o st))).
Proof.
  intros Hst. destruct o; simpl.
  - rewrite loadSound_eq. cbv zeta. unfold decode.
    destruct (os_Open_result E _ path) as [msg|];
      [|destruct (mp3_Decode_result E _ path) as [fmt|msg]]; simpl;
      rewrite <- ?app_assoc; now apply Rewinds_closeCurrent.
  - now apply Rewinds_play.
  - simpl. now apply Rewinds_quiet.
  - rewrite setVolume_eq. destruct (isPlaying (player st)); cbn [snd]; [|exact Hst].
    apply Rewinds_play. simpl. now apply Rewinds_quiet.
  - exact Hst.
  - rewrite onExit_eq. simpl. now apply Rewinds_closeCurrent.
Qed.

End Rewind.

(** X11: in the history of every reachable state, each [speaker.Play] comes
    right after a [Seek(0)] on the handle of the stream it submits, which
    comes right after a [speaker.Init]: the player never resumes a stream
    where it was stopped; Play after Pause, a change of volume and a change
    of track all start the track from its beginning on a re-initialised
    speaker. *)
Theorem every_submit_follows_rewind E tracks ops :
  RewindsBeforePlay (trace (world (run E ops (initial tracks)))).
Proof.
  assert (H : forall st, RewindsBeforePlay (trace (world st)) ->
                         RewindsBeforePlay (trace (world (run E ops st)))).
  { induction ops as [|o ops' IH]; intros st Hst; simpl; [exact Hst|].
    apply IH, Rewinds_exec, Hst. }
  apply H. intros pre s post Heq. destruct pre; discriminate.
Qed.

(** ** Invariants of [main], in general *)

Section MainInvariant.

Variable E : Env.
Variable P : State -> Prop.

Hypothesis P_play : forall st, P st -> P (snd (play E st)).
Hypothesis P_pause : forall st, P st -> P (snd (pause st)).
Hypothesis P_setVolume : forall v st, P st -> P (snd (setVolume E v st)).
Hypothesis P_onExit : forall st, P st -> P (snd (onExit st)).
Hypothesis P_onSoundItem :
  forall i st, (i < List.length (sounds (player st)))%nat ->
               P st -> P (snd (onSoundItem E i st)).

Lemma forItems_invariant items pending st :
  Forall (fun i => i < List.length (sounds (player st)))%nat items ->
  P st -> P (snd (forItems E items pending st)).
Proof.
  revert st. induction items as [|i items IH]; intros st Hin Hst; simpl;
    [exact Hst|].
  inversion Hin as [|? ? Hi Hrest]; subst.
  unfold bind. destruct (nth i pending false).
  - pose proof (P_onSoundItem i st Hi Hst) as H1.
    destruct (onSoundItem_keeps E i st) as (_ & _ & Hs).
    destruct (onSoundItem E i st) as [u st1]. simpl in *.
    apply IH; [now rewrite Hs|exact H1].
  - unfold ret. now apply IH.
Qed.

Lemma poll_invariant pending st : P st -> P (snd (pollSoundItems E pending st)).
Proof.
  intros Hst. unfold pollSoundItems, bind, self. apply forItems_invariant; [|exact Hst].
  apply Forall_forall. intros i Hi. apply in_seq in Hi. simpl. lia.
Qed.

Lemma iteration_invariant c pending st : P st -> P (snd (iteration E c pending st)).
Proof.
  intros Hst.
  assert (Hthen : forall A (m : M A), P (snd (m st)) ->
            P (snd ((m ;;; pollSoundItems E pending ;;; ret false) st))).
  { intros A m Hm. unfold bind at 1 2. destruct (m st) as [a st1]. simpl in Hm.
    pose proof (poll_invariant pending st1 Hm) as H.
    destruct (pollSoundItems E pending st1) as [u st2]. exact H. }
  destruct c; simpl.
  - now apply Hthen, P_play.
  - now apply Hthen, P_pause.
  - now apply Hthen, P_setVolume.
  - now apply Hthen, P_setVolume.
  - now apply Hthen, P_setVolume.
  - unfold bind. pose proof (P_onExit st Hst) as H.
    destruct (onExit st) as [u st1]. exact H.
Qed.

Lemma loop_invariant inputs st : P st -> P (snd (loop E inputs st)).
Proof.
  revert st. induction inputs as [|[c pending] inputs IH]; intros st Hst; simpl;
    [exact Hst|].
  unfold bind. pose proof (iteration_invariant c pending st Hst) as H.
  destruct (iteration E c pending st) as [quit st1]. destruct quit; [exact H|].
  now apply IH.
Qed.

Lemma main_invariant tracks inputs :
  P (snd (startup E (initial tracks))) ->
  P (snd (main E inputs (initial tracks))).
Proof.
  intros H. unfold main, bind.
  destruct (startup E (initial tracks)) as [u st1]. now apply loop_invariant.
Qed.

End MainInvariant.

(** ** A volume change whose restart fails *)

(** X12: when [setVolume] is called on a playing player and the [play] of
    its restart fails in [speaker.Init], the error is dropped and the
    player is left stopped: the new volume is stored, [isPlaying] is false,
    the speaker is closed and plays nothing, no stream has been submitted,
    and the decode handle is still the current one and as open as
    before. *)
Theorem failed_restart_stops_player E v st msg :
  isPlaying (player st) = true ->
  fst (play E (snd (pause (mkState (set_volume v (player st)) (world st)))))
    = Some (SpeakerError msg) ->
  player (snd (setVolume E v st)) = set_isPlaying false (set_volume v (player st)) /\
  mixer (world (snd (setVolume E v st))) = [] /\
  speakerOn (world (snd (setVolume E v st))) = false /\
  openHandles (world (snd (setVolume E v st))) = openHandles (world st) /\
  since st (snd (setVolume E v st)) = [EvClear; initEvent E (player st)] /\
  count isSubmit (since st (snd (setVolume E v st))) = 0%nat.
Proof.
  intros Hp. rewrite setVolume_eq, Hp, pause_eq. cbn [snd].
  rewrite play_eq. cbn [player world].
  change (currentStreamer (set_isPlaying false (set_volume v (player st))))
    with (currentStreamer (player st)).
  destruct (currentStreamer (player st)) as [h|]; [|discriminate].
  cbv zeta. destruct (speaker_Init_result E _ _ _) as [msg'|]; cbn [fst snd].
  - intros _. erewrite since_app by (simpl; rewrite <- !app_assoc; reflexivity).
    repeat split.
  - unfold err. cbn [fst]. destruct (streamer_Err_result E _ _); discriminate.
Qed.

(** X12 at work: Low is chosen after the audio device went away. *)
Lemma failed_restart_stops_player_witness :
  isPlaying (player (snd (setVolume (Scenario.device_gone 6) (-3)%float
                            Scenario.playing_then_device_gone))) = false /\
  mixer (world (snd (setVolume (Scenario.device_gone 6) (-3)%float
                      Scenario.playing_then_device_gone))) = [].
Proof.
  pose proof (failed_restart_stops_player (Scenario.device_gone 6) (-3)%float
                Scenario.playing_then_device_gone "failed to initialize speaker"
                eq_refl eq_refl) as H.
  split.
  - rewrite (proj1 H). reflexivity.
  - exact (proj1 (proj2 H)).
Defined.

(** ** The current track and the log, whatever clicks arrive *)

Section Tracks.

Variable E : Env.

Lemma setVolume_track v st :
  sounds (player (snd (setVolume E v st))) = sounds (player st) /\
  currentSound (player (snd (setVolume E v st))) = currentSound (player st) /\
  currentStreamer (player (snd (setVolume E v st))) = currentStreamer (player st) /\
  logs (world (snd (setVolume E v st))) = logs (world st).
Proof.
  rewrite setVolume_eq. destruct (isPlaying (player st)); cbn [snd]; [|repeat split].
  set (st1 := snd (pause (mkState (set_volume v (player st)) (world st)))).
  rewrite play_logs, play_currentStreamer.
  destruct (play_keeps E st1) as (_ & -> & ->).
  repeat split.
Qed.

Lemma TrackInv_ext tracks st st' :
  sounds (player st') = sounds (player st) ->
  currentSound (player st') = currentSound (player st) ->
  currentStreamer (player st') = currentStreamer (player st) ->
  TrackInv tracks st -> TrackInv tracks st'.
Proof. unfold TrackInv. intros -> -> ->. trivial. Qed.

Lemma TrackInv_play tracks st : TrackInv tracks st -> TrackInv tracks (snd (play E st)).
Proof.
  destruct (play_keeps E st) as (_ & Hs & Hc).
  apply TrackInv_ext; auto using play_currentStreamer.
Qed.

Lemma TrackInv_load tracks path st :
  In path tracks -> TrackInv tracks st -> TrackInv tracks (snd (loadSound E path st)).
Proof.
  intros Hin [Hs Hst]. rewrite loadSound_eq. cbv zeta.
  destruct (os_Open_result E _ path); [split; assumption|].
  destruct (mp3_Decode_result E _ path); [|split; assumption].
  split; [exact Hs|]. right. split; [discriminate|exact Hin].
Qed.

Lemma TrackInv_onSoundItem tracks i st :
  (i < List.length (sounds (player st)))%nat ->
  TrackInv tracks st -> TrackInv tracks (snd (onSoundItem E i st)).
Proof.
  intros Hi Hst. rewrite onSoundItem_eq. cbv zeta.
  assert (Hin : In (nth i (sounds (player st)) "") tracks).
  { destruct Hst as [Hs _]. rewrite <- Hs. now apply nth_In. }
  pose proof (TrackInv_load tracks _ st Hin Hst) as H1.
  set (r := loadSound E (nth i (sounds (player st)) "") st) in *.
  assert (H2 : TrackInv tracks
                 match fst r with
                 | Some e => mkState (player (snd r))
                               (println "Error loading sound:" e (world (snd r)))
                 | None => snd r
                 end).
  { destruct (fst r); exact H1. }
  destruct (isPlaying _); cbn [snd]; [now apply TrackInv_play|exact H2].
Qed.

Lemma TrackInv_startup tracks : TrackInv tracks (snd (startup E (initial tracks))).
Proof.
  assert (H0 : TrackInv tracks (initial tracks)).
  { split; [reflexivity|]. left. split; reflexivity. }
  destruct tracks as [|first rest]; [exact H0|].
  rewrite startup_eq. apply TrackInv_play.
  destruct (setVolume_track (-2)%float
              (snd (loadSound E first (initial (first :: rest))))) as (Hs & Hc & Hh & _).
  eapply TrackInv_ext; [exact Hs|exact Hc|exact Hh|].
  apply TrackInv_load; [now left|exact H0].
Qed.



End Tracks.

(** X13: whatever clicks arrive and whatever the libraries answer, the
    track list [main] ends with is the configured one, and the current
    track is empty as long as no load has succeeded (the current streamer
    is nil) and is one of the configured tracks afterwards. *)
Theorem current_track_is_configured E tracks inputs :
  let st := snd (main E inputs (initial tracks)) in
  sounds (player st) = tracks /\
  (currentStreamer (player st) = None /\ currentSound (player st) = "" \/
   currentStreamer (player st) <> None /\ In (currentSound (player st)) tracks).
Proof.
  intros st. unfold st.
  apply (main_invariant E (TrackInv tracks)).
  - apply TrackInv_play.
  - intros s. apply TrackInv_ext; reflexivity.
  - intros v s. destruct (setVolume_track E v s) as (Hs & Hc & Hh & _).
    now apply TrackInv_ext.
  - intros s. rewrite onExit_eq. apply TrackInv_ext; reflexivity.
  - apply TrackInv_onSoundItem.
  - apply TrackInv_startup.
Qed.


(** X2 at work: after a load and a Pause nothing is playing. *)
Lemma speaker_plays_stored_volume_witness :
  mixer (world (run Scenario.all_fine [OpLoad "a.mp3"; OpPause]
                  (initial Scenario.two_tracks))) = [].
Proof.
  exact (proj2 (speaker_plays_stored_volume Scenario.all_fine Scenario.two_tracks
                  [OpLoad "a.mp3"; OpPause]) eq_refl).
Defined.

(** X8 at work: Pause arrives with a click on "b.mp3" pending. *)
Lemma turn_sets_volume_witness :
  isPlaying (player (snd (iteration Scenario.all_fine ClickPause [false; true]
                            Scenario.playing))) = false.
Proof.
  exact (proj1 (proj2 (turn_sets_volume Scenario.all_fine ClickPause [false; true]
                         Scenario.playing)) eq_refl).
Defined.
